(** * HH42 digital thermometer driver: a shallow embedding of [src/index.ts]

    The class [HH42] owns one serial connection, a line buffer and a poll
    timer.  The embedding has three layers:

    - [JS]: the ECMAScript built-ins the class calls on strings
      ([split], [trim], [slice], [parseFloat], [Buffer.toString('ascii')]);
    - [RegExp]: regular expressions with a matcher by derivatives, and the
      pattern literal of [processBuffer] as a term of that type;
    - the class itself: its three fields, the objects it creates (serial
      ports, interval timers) kept in an explicit store, and one function per
      method or registered handler, each passing the store along.

    A Number produced by [parseFloat] is an infinity when the parsed literal
    lies beyond the range of binary64; within the range it is kept as the
    exact decimal value of the literal (a rational), and [Num q] stands for
    the binary64 value nearest to [q]. *)

From Stdlib Require Import List String Ascii Bool Arith ZArith QArith Lia.
From Stdlib Require Import Strings.Byte.
Import ListNotations.
Open Scope string_scope.
Open Scope bool_scope.
Close Scope Q_scope.

(* ================================================================== *)
(** ** ECMAScript built-ins on strings                                  *)
(* ================================================================== *)

Module JS.

Definition CR : ascii := ascii_of_nat 13.
Definition LF : ascii := ascii_of_nat 10.
Definition CRLF : string := String CR (String LF "").

(** [WhiteSpace] and [LineTerminator] code points below 256: TAB, LF, VT,
    FF, CR, SP and NBSP.  Both [String.prototype.trim] and the class
    escape [\s] use this set. *)
Definition isWhiteSpace (c : ascii) : bool :=
  let n := N_of_ascii c in
  (N.eqb n 9 || N.eqb n 10 || N.eqb n 11 || N.eqb n 12 || N.eqb n 13
   || N.eqb n 32 || N.eqb n 160)%N.

(** The class escape [\d]. *)
Definition isDigit (c : ascii) : bool :=
  let n := N_of_ascii c in (N.leb 48 n && N.leb n 57)%N.

Definition isEmpty (s : string) : bool :=
  match s with "" => true | _ => false end.

(** [buf.toString('ascii')]: one character per byte, the high bit of each
    byte cleared. *)
Definition ascii_of_byte7 (b : byte) : ascii :=
  ascii_of_N (N.land (Byte.to_N b) 127).

Fixpoint toString_ascii (data : list byte) : string :=
  match data with
  | [] => ""
  | b :: rest => String (ascii_of_byte7 b) (toString_ascii rest)
  end.

(** [s.split('\r\n')]: the segments between the occurrences of the
    separator, found left to right; the result is never empty. *)
Definition cons_head (c : ascii) (segs : list string) : list string :=
  match segs with
  | seg :: segs' => String c seg :: segs'
  | [] => [String c ""]
  end.

Fixpoint split_CRLF (s : string) : list string :=
  match s with
  | "" => [""]
  | String c rest =>
      match rest with
      | String d rest' =>
          if Ascii.eqb c CR && Ascii.eqb d LF
          then "" :: split_CRLF rest'
          else cons_head c (split_CRLF rest)
      | "" => [String c ""]
      end
  end.

(** [arr.pop()]: the last element ([None] for [undefined]) and the array
    that is left. *)
Definition pop {A} (l : list A) : option A * list A :=
  match l with
  | [] => (None, [])
  | x :: l' => (Some (last l' x), removelast l)
  end.

(** [x || ''] on a string or [undefined]. *)
Definition or_empty (x : option string) : string :=
  match x with
  | Some s => if isEmpty s then "" else s
  | None => ""
  end.

Fixpoint trimStart (s : string) : string :=
  match s with
  | String c rest => if isWhiteSpace c then trimStart rest else s
  | "" => ""
  end.

Fixpoint trimEnd (s : string) : string :=
  match s with
  | String c rest =>
      let rest' := trimEnd rest in
      if isWhiteSpace c && isEmpty rest' then "" else String c rest'
  | "" => ""
  end.

Definition trim (s : string) : string := trimEnd (trimStart s).

(** [s.slice(-1)]: the last character as a string, empty on the empty
    string. *)
Fixpoint slice_last (s : string) : string :=
  match s with
  | "" => ""
  | String c "" => String c ""
  | String _ rest => slice_last rest
  end.

(** *** Numbers *)

Inductive number : Type :=
| NaN
| Infinity (negative : bool)
| NegZero
| Num (q : Q).

Definition pow10 (n : nat) : positive := Nat.iter n (Pos.mul 10) 1%positive.

Definition digitValue (c : ascii) : Z := Z.of_N (N_of_ascii c) - 48.

Fixpoint digitsValue_from (acc : Z) (ds : string) : Z :=
  match ds with
  | "" => acc
  | String c rest => digitsValue_from (10 * acc + digitValue c) rest
  end.

Definition digitsValue (ds : string) : Z := digitsValue_from 0 ds.

(** The range of binary64.  The largest finite Number is [2^1024 - 2^971];
    a value of magnitude [2^1024 - 2^970] or more, half-way to [2^1024] or
    beyond, rounds to an infinity. *)
Definition OVERFLOW_THRESHOLD : Z := Eval vm_compute in (2 ^ 1024 - 2 ^ 970)%Z.

Definition overflows (q : Q) : bool :=
  (OVERFLOW_THRESHOLD * Z.pos (Qden q) <=? Z.abs (Qnum q))%Z.

(** The Number value of the rational [q], with the sign the literal had. *)
Definition toNumber (neg : bool) (q : Q) : number :=
  if overflows q then Infinity neg else Num q.

(** The Number value of [ip.fp] times ten to the [e], signed. *)
Definition decimal (neg : bool) (ip fp : string) (e : Z) : number :=
  let m := digitsValue (ip ++ fp) in
  if Z.eqb m 0 && neg then NegZero
  else
    let m := if neg then (- m)%Z else m in
    if (0 <=? e)%Z
    then toNumber neg
           (Qmake (m * Z.pos (pow10 (Z.to_nat e))) (pow10 (String.length fp)))
    else toNumber neg (Qmake m (pow10 (String.length fp + Z.to_nat (- e)))).

Fixpoint takeDigits (s : string) : string * string :=
  match s with
  | String c rest =>
      if isDigit c
      then let (ds, s') := takeDigits rest in (String c ds, s')
      else ("", s)
  | "" => ("", "")
  end.

Definition takeSign (s : string) : bool * string :=
  match s with
  | String c rest =>
      if Ascii.eqb c "-" then (true, rest)
      else if Ascii.eqb c "+" then (false, rest)
      else (false, s)
  | "" => (false, "")
  end.

(** [ExponentPart]: [e] or [E], an optional sign, at least one digit;
    anything else contributes no exponent. *)
Definition exponentPart (s : string) : Z :=
  match s with
  | String c rest =>
      if Ascii.eqb c "e" || Ascii.eqb c "E"
      then
        let (neg, rest') := takeSign rest in
        let (ds, _) := takeDigits rest' in
        if isEmpty ds then 0%Z
        else if neg then (- digitsValue ds)%Z else digitsValue ds
      else 0%Z
  | "" => 0%Z
  end.

(** [parseFloat]: leading white space is skipped, then the longest prefix
    that is a [StrDecimalLiteral] is taken; [NaN] when there is none. *)
Definition parseFloat (input : string) : number :=
  let s := trimStart input in
  let (neg, s) := takeSign s in
  if String.prefix "Infinity" s then Infinity neg
  else
    let (ip, s) := takeDigits s in
    let (fp, s) :=
      match s with
      | String c rest => if Ascii.eqb c "." then takeDigits rest else ("", s)
      | "" => ("", s)
      end in
    if isEmpty ip && isEmpty fp then NaN
    else decimal neg ip fp (exponentPart s).

(** Truthiness of a number or [undefined], for [x || d]. *)
Definition truthyZ (x : option Z) : bool :=
  match x with
  | Some n => negb (Z.eqb n 0)
  | None => false
  end.

Definition truthyString (x : option string) : bool :=
  match x with
  | Some s => negb (isEmpty s)
  | None => false
  end.

End JS.

(* ================================================================== *)
(** ** Regular expressions                                              *)
(* ================================================================== *)

Module RegExp.

Inductive regex : Type :=
| Void
| Eps
| Class (p : ascii -> bool)
| Cat (r1 r2 : regex)
| Alt (r1 r2 : regex)
| Star (r : regex).

(** [r?] and [r+]. *)
Definition Opt (r : regex) : regex := Alt r Eps.
Definition Plus (r : regex) : regex := Cat r (Star r).

Fixpoint nullable (r : regex) : bool :=
  match r with
  | Void => false
  | Eps => true
  | Class _ => false
  | Cat r1 r2 => nullable r1 && nullable r2
  | Alt r1 r2 => nullable r1 || nullable r2
  | Star _ => true
  end.

Fixpoint deriv (c : ascii) (r : regex) : regex :=
  match r with
  | Void => Void
  | Eps => Void
  | Class p => if p c then Eps else Void
  | Cat r1 r2 =>
      if nullable r1
      then Alt (Cat (deriv c r1) r2) (deriv c r2)
      else Cat (deriv c r1) r2
  | Alt r1 r2 => Alt (deriv c r1) (deriv c r2)
  | Star r1 => Cat (deriv c r1) (Star r1)
  end.

(** [/^r$/.test(s)]: the whole of [s] is in the language of [r]. *)
Fixpoint test (r : regex) (s : string) : bool :=
  match s with
  | "" => nullable r
  | String c s' => test (deriv c r) s'
  end.

(** The words of a regular expression. *)
Inductive lang : regex -> string -> Prop :=
| L_eps : lang Eps ""
| L_class p c : p c = true -> lang (Class p) (String c "")
| L_cat r1 r2 s1 s2 : lang r1 s1 -> lang r2 s2 -> lang (Cat r1 r2) (s1 ++ s2)
| L_alt_l r1 r2 s : lang r1 s -> lang (Alt r1 r2) s
| L_alt_r r1 r2 s : lang r2 s -> lang (Alt r1 r2) s
| L_star_nil r : lang (Star r) ""
| L_star_cons r c s1 s2 :
    lang r (String c s1) -> lang (Star r) s2 -> lang (Star r) (String c s1 ++ s2).

End RegExp.

Import JS RegExp.

(* ================================================================== *)
(** ** The objects of the program                                       *)
(* ================================================================== *)

(** [HH42Options]: every option may be left out.  The types of the
    interface are erased when the program runs, so a caller can pass any
    number, 0 included; numbers are integers here. *)
Record HH42Options : Type := {
  opt_baudRate : option Z;
  opt_dataBits : option Z;
  opt_stopBits : option Z;
  opt_parity : option string
}.

Definition no_options : HH42Options :=
  {| opt_baudRate := None; opt_dataBits := None;
     opt_stopBits := None; opt_parity := None |}.

(** The argument of [new SerialPort(...)]. *)
Record OpenOptions : Type := {
  path : string;
  baudRate : Z;
  dataBits : Z;
  stopBits : Z;
  parity : string
}.

(** A [SerialPort] object.  The constructor starts opening the port; the
    transport reports later that it is open, or that it failed. *)
Inductive PortStatus : Type := Opening | Open | Closed.

Record SerialPort : Type := {
  settings : OpenOptions;
  status : PortStatus;
  rts : bool
}.

Definition isOpen (p : SerialPort) : bool :=
  match status p with Open => true | _ => false end.

(** An active [setInterval] timer of the event loop.  The only callback the
    class ever registers is the poll tick, so a timer carries none. *)
Record Interval : Type := {
  handle : nat;
  due : Z;
  period : Z
}.

Record Reading : Type := {
  temperatureValue : number;
  unit : string
}.

(** What the instance emits as an [EventEmitter]. *)
Inductive Event : Type :=
| portOpenedTemperature (portName : string)
| serialErrorTemperature (message : string)
| serialDataTemperature (reading : Reading).

(** What the instance does to the world outside. *)
Inductive Effect : Type :=
| Emit (e : Event)
| Construct (port : nat)
| Close (port : nat)
| SetRTS (port : nat)
| Write (port : nat) (data : string)
| ConsoleLog (text : string)
| ConsoleError (text : string).

(** The fields of the one [HH42] instance, then the store: the ports created
    so far (a reference is an index), the active timers, the clock in
    milliseconds and the effects so far, oldest first, with their time. *)
Record World : Type := {
  portTemperature : option nat;
  buffer : string;
  readingInterval : option nat;
  ports : list SerialPort;
  intervals : list Interval;
  nextHandle : nat;
  now : Z;
  trace : list (Z * Effect)
}.

Definition initial : World :=
  {| portTemperature := None; buffer := ""; readingInterval := None;
     ports := []; intervals := []; nextHandle := 0; now := 0; trace := [] |}.

Definition set_portTemperature (v : option nat) (w : World) : World :=
  {| portTemperature := v; buffer := buffer w;
     readingInterval := readingInterval w; ports := ports w;
     intervals := intervals w; nextHandle := nextHandle w; now := now w;
     trace := trace w |}.

Definition set_buffer (v : string) (w : World) : World :=
  {| portTemperature := portTemperature w; buffer := v;
     readingInterval := readingInterval w; ports := ports w;
     intervals := intervals w; nextHandle := nextHandle w; now := now w;
     trace := trace w |}.

Definition set_readingInterval (v : option nat) (w : World) : World :=
  {| portTemperature := portTemperature w; buffer := buffer w;
     readingInterval := v; ports := ports w;
     intervals := intervals w; nextHandle := nextHandle w; now := now w;
     trace := trace w |}.

Definition set_ports (v : list SerialPort) (w : World) : World :=
  {| portTemperature := portTemperature w; buffer := buffer w;
     readingInterval := readingInterval w; ports := v;
     intervals := intervals w; nextHandle := nextHandle w; now := now w;
     trace := trace w |}.

Definition set_intervals (v : list Interval) (w : World) : World :=
  {| portTemperature := portTemperature w; buffer := buffer w;
     readingInterval := readingInterval w; ports := ports w;
     intervals := v; nextHandle := nextHandle w; now := now w;
     trace := trace w |}.

Definition set_nextHandle (v : nat) (w : World) : World :=
  {| portTemperature := portTemperature w; buffer := buffer w;
     readingInterval := readingInterval w; ports := ports w;
     intervals := intervals w; nextHandle := v; now := now w;
     trace := trace w |}.

Definition set_now (v : Z) (w : World) : World :=
  {| portTemperature := portTemperature w; buffer := buffer w;
     readingInterval := readingInterval w; ports := ports w;
     intervals := intervals w; nextHandle := nextHandle w; now := v;
     trace := trace w |}.

(** An effect happens now. *)
Definition perform (e : Effect) (w : World) : World :=
  {| portTemperature := portTemperature w; buffer := buffer w;
     readingInterval := readingInterval w; ports := ports w;
     intervals := intervals w; nextHandle := nextHandle w; now := now w;
     trace := trace w ++ [(now w, e)] |}.

Definition emit (e : Event) (w : World) : World := perform (Emit e) w.

(** *** The store *)

Definition lookup_port (p : nat) (w : World) : option SerialPort :=
  nth_error (ports w) p.

Fixpoint update_nth {A} (n : nat) (f : A -> A) (l : list A) : list A :=
  match l, n with
  | [], _ => []
  | x :: l', O => f x :: l'
  | x :: l', S n' => x :: update_nth n' f l'
  end.

Definition set_status (s : PortStatus) (p : SerialPort) : SerialPort :=
  {| settings := settings p; status := s; rts := rts p |}.

Definition set_rts (b : bool) (p : SerialPort) : SerialPort :=
  {| settings := settings p; status := status p; rts := b |}.

(** [this.portTemperature && this.portTemperature.isOpen]: the port the field
    refers to, when there is one and it is open. *)
Definition openPort (w : World) : option nat :=
  match portTemperature w with
  | Some p =>
      match lookup_port p w with
      | Some port => if isOpen port then Some p else None
      | None => None
      end
  | None => None
  end.

(** [port.close()]: [isOpen] is false from the call on. *)
Definition port_close (p : nat) (w : World) : World :=
  perform (Close p) (set_ports (update_nth p (set_status Closed) (ports w)) w).

(** [port.set({ rts: true })]. *)
Definition port_set_rts (p : nat) (w : World) : World :=
  perform (SetRTS p) (set_ports (update_nth p (set_rts true) (ports w)) w).

(** [new SerialPort(options)]: the new object, which starts being opened,
    is put in the store; its reference is returned. *)
Definition new_SerialPort (port : SerialPort) (w : World) : nat * World :=
  let p := List.length (ports w) in
  (p, perform (Construct p) (set_ports (ports w ++ [port]) w)).

(** [setInterval(tick, ms)]: the handle and the world with the timer armed. *)
Definition setInterval (ms : Z) (w : World) : nat * World :=
  let h := nextHandle w in
  let timer := {| handle := h; due := now w + ms; period := ms |} in
  (h, set_nextHandle (S h) (set_intervals (intervals w ++ [timer]) w)).

(** [clearInterval(h)]. *)
Definition clearInterval (h : nat) (w : World) : World :=
  set_intervals (filter (fun i => negb (Nat.eqb (handle i) h)) (intervals w)) w.

(* ================================================================== *)
(** ** The class [HH42]                                                 *)
(* ================================================================== *)

(** The pattern literal of [processBuffer]:
    [/^[-\s]?\d+\.\d+\s?[CF]?$/]. *)
Definition isMinusOrSpace (c : ascii) : bool := Ascii.eqb c "-" || isWhiteSpace c.
Definition isPoint (c : ascii) : bool := Ascii.eqb c ".".
Definition isUnitLetter (c : ascii) : bool := Ascii.eqb c "C" || Ascii.eqb c "F".

Definition READING_PATTERN : regex :=
  Cat (Opt (Class isMinusOrSpace))
    (Cat (Plus (Class isDigit))
       (Cat (Class isPoint)
          (Cat (Plus (Class isDigit))
             (Cat (Opt (Class isWhiteSpace)) (Opt (Class isUnitLetter)))))).

(** [stopTemperatureReading()]. *)
Definition stopTemperatureReading (w : World) : World :=
  match readingInterval w with
  | Some h => set_readingInterval None (clearInterval h w)
  | None => w
  end.

(** [x || d] on the options. *)
Definition orZ (x : option Z) (d : Z) : Z :=
  match x with
  | Some n => if truthyZ x then n else d
  | None => d
  end.

Definition orString (x : option string) (d : string) : string :=
  match x with
  | Some s => if truthyString x then s else d
  | None => d
  end.

Definition resolveOptions (portName : string) (options : HH42Options) : OpenOptions :=
  {| path := portName;
     baudRate := orZ (opt_baudRate options) 9600;
     dataBits := orZ (opt_dataBits options) 8;
     stopBits := orZ (opt_stopBits options) 1;
     parity := orString (opt_parity options) "none" |}.

(** The object [new SerialPort] makes of the resolved options. *)
Definition fresh (portName : string) (options : HH42Options) : SerialPort :=
  {| settings := resolveOptions portName options;
     status := Opening; rts := false |}.

(** [initializeSerialPort(portName, options)].  The three handlers it
    registers on the new port are [onData], [onOpen portName] and [onError]
    below; the transport calls them. *)
Definition initializeSerialPort (portName : string) (options : HH42Options)
    (w : World) : World :=
  let w := stopTemperatureReading w in
  let w := match openPort w with
           | Some p => port_close p w
           | None => w
           end in
  let (p, w) := new_SerialPort (fresh portName options) w in
  set_portTemperature (Some p) w.

(** The body of the loop of [processBuffer]: the reading a line gives, if
    any. *)
Definition processLine (line : string) : option Reading :=
  let trimmedLine := trim line in
  if String.eqb trimmedLine ">" || String.eqb trimmedLine "T" then None
  else if test READING_PATTERN trimmedLine then
    let temperatureValue := parseFloat trimmedLine in
    let unit :=
      if String.eqb (slice_last trimmedLine) "C"
         || String.eqb (slice_last trimmedLine) "F"
      then slice_last trimmedLine else "" in
    Some {| temperatureValue := temperatureValue; unit := unit |}
  else None.

Definition processLines (lines : list string) (w : World) : World :=
  fold_left
    (fun w line =>
       match processLine line with
       | Some r => emit (serialDataTemperature r) w
       | None => w
       end)
    lines w.

(** [processBuffer()]. *)
Definition processBuffer (w : World) : World :=
  let lines := split_CRLF (buffer w) in
  let (tail, lines) := pop lines in
  let w := set_buffer (or_empty tail) w in
  processLines lines w.

(** The handler of ['data']. *)
Definition onData (data : list byte) (w : World) : World :=
  let w := set_buffer (buffer w ++ toString_ascii data) w in
  processBuffer w.

(** [enterHostMode()]. *)
Definition enterHostMode (w : World) : World :=
  match openPort w with
  | Some p => port_set_rts p w
  | None => w
  end.

(** The command ['T\r\n'] and the period of the poll, in milliseconds. *)
Definition POLL_COMMAND : string := "T" ++ CRLF.
Definition POLL_PERIOD : Z := 524.

(** [requestTemperatureReading()]. *)
Definition requestTemperatureReading (w : World) : World :=
  match openPort w with
  | Some _ =>
      let (h, w) := setInterval POLL_PERIOD w in
      set_readingInterval (Some h) w
  | None => w
  end.

(** The callback of the interval: [this.portTemperature?.write('T\r\n')]. *)
Definition pollTick (w : World) : World :=
  match portTemperature w with
  | Some p => perform (Write p POLL_COMMAND) w
  | None => w
  end.

(** The handler of ['open'] registered by [initializeSerialPort portName]. *)
Definition onOpen (portName : string) (w : World) : World :=
  let w := perform (ConsoleLog "Port opened successfully") w in
  let w := enterHostMode w in
  let w := requestTemperatureReading w in
  emit (portOpenedTemperature portName) w.

(** The handler of ['error']. *)
Definition onError (message : string) (w : World) : World :=
  let w := perform (ConsoleError ("Serial port error: " ++ message)) w in
  emit (serialErrorTemperature message) w.

(** [static async getAvailablePorts()].  [SerialPort.list()] either yields
    the descriptions of the attached ports or fails; the result is how the
    returned promise settles, with what was written to the console. *)
Record PortInfo : Type := {
  info_path : string;
  info_manufacturer : option string;
  info_serialNumber : option string
}.

Inductive Settled (A : Type) : Type :=
| Fulfilled (value : A)
| Rejected (reason : string).
Arguments Fulfilled {A} value.
Arguments Rejected {A} reason.

Definition getAvailablePorts (listed : Settled (list PortInfo))
    : Settled (list string) * list Effect :=
  match listed with
  | Fulfilled ports => (Fulfilled (map info_path ports), [])
  | Rejected err =>
      (Fulfilled [], [ConsoleError ("Error getting available ports: " ++ err)])
  end.

(* ================================================================== *)
(** ** The transport and the event loop                                 *)
(* ================================================================== *)

(** The transport reports that port [p] is open: the port, if it was being
    opened, becomes open and its ['open'] handler runs. *)
Definition port_opened (p : nat) (w : World) : World :=
  match lookup_port p w with
  | Some port =>
      match status port with
      | Opening =>
          onOpen (path (settings port))
            (set_ports (update_nth p (set_status Open) (ports w)) w)
      | _ => w
      end
  | None => w
  end.

(** The transport reports an error on port [p]; a port that was being
    opened stays closed. *)
Definition port_failed (p : nat) (message : string) (w : World) : World :=
  match lookup_port p w with
  | Some port =>
      let w := match status port with
               | Opening => set_ports (update_nth p (set_status Closed) (ports w)) w
               | _ => w
               end in
      onError message w
  | None => w
  end.

(** The transport closes port [p] (the device is unplugged); the class
    registers no handler for this. *)
Definition port_lost (p : nat) (w : World) : World :=
  set_ports (update_nth p (set_status Closed) (ports w)) w.

(** One timer at the current time: if it is due its callback runs and it is
    armed again one period later. *)
Definition fire (w : World) (i : Interval) : World :=
  if Z.eqb (due i) (now w)
  then
    let rearm (j : Interval) : Interval :=
      if Nat.eqb (handle j) (handle i)
      then {| handle := handle j; due := due j + period j; period := period j |}
      else j in
    pollTick (set_intervals (map rearm (intervals w)) w)
  else w.

(** One millisecond passes: the timers that are then due fire, in the order
    they were set. *)
Definition elapse1 (w : World) : World :=
  let w := set_now (now w + 1) w in
  fold_left fire (intervals w) w.

Fixpoint elapse (ms : nat) (w : World) : World :=
  match ms with
  | O => w
  | S ms' => elapse ms' (elapse1 w)
  end.

(** What can happen to the instance: calls of its two public methods, and
    the events of the transport and of the clock.  Bytes are handed to the
    ['data'] handler whichever port they come from: the handler does not
    look at the port. *)
Inductive Action : Type :=
| Initialize (portName : string) (options : HH42Options)
| Stop
| Opened (port : nat)
| Data (port : nat) (data : list byte)
| Failed (port : nat) (message : string)
| Lost (port : nat)
| Elapse (ms : nat).

Definition step (w : World) (a : Action) : World :=
  match a with
  | Initialize portName options => initializeSerialPort portName options w
  | Stop => stopTemperatureReading w
  | Opened p => port_opened p w
  | Data _ data => onData data w
  | Failed p message => port_failed p message w
  | Lost p => port_lost p w
  | Elapse ms => elapse ms w
  end.

Definition run (acts : list Action) (w : World) : World := fold_left step acts w.

(** *** Observations *)

(** The readings emitted so far, oldest first. *)
Fixpoint readings_of (t : list (Z * Effect)) : list Reading :=
  match t with
  | [] => []
  | (_, Emit (serialDataTemperature r)) :: t' => r :: readings_of t'
  | _ :: t' => readings_of t'
  end.

Definition readings (w : World) : list Reading := readings_of (trace w).

(** The writes to ports so far, oldest first: time, port and data. *)
Fixpoint writes_of (t : list (Z * Effect)) : list (Z * nat * string) :=
  match t with
  | [] => []
  | (time, Write p data) :: t' => (time, p, data) :: writes_of t'
  | _ :: t' => writes_of t'
  end.

Definition writes (w : World) : list (Z * nat * string) := writes_of (trace w).

(** The ports that are open, by reference. *)
Fixpoint open_from (n : nat) (l : list SerialPort) : list nat :=
  match l with
  | [] => []
  | p :: l' => if isOpen p then n :: open_from (S n) l' else open_from (S n) l'
  end.

Definition openPorts (w : World) : list nat := open_from 0 (ports w).

(** Bytes delivered by a sequence of chunks, and by a sequence of actions. *)
Definition deliver (chunks : list (list byte)) (w : World) : World :=
  fold_left (fun w data => onData data w) chunks w.

Fixpoint received (acts : list Action) : list byte :=
  match acts with
  | [] => []
  | Data _ data :: acts' => data ++ received acts'
  | _ :: acts' => received acts'
  end.

(** ASCII text as the bytes of a chunk. *)
Fixpoint bytes_of (s : string) : list byte :=
  match s with
  | "" => []
  | String c s' => byte_of_ascii c :: bytes_of s'
  end.

(* ================================================================== *)
(** ** Notions the properties are stated with                           *)
(* ================================================================== *)

Fixpoint all (p : ascii -> bool) (s : string) : bool :=
  match s with
  | "" => true
  | String c s' => p c && all p s'
  end.

(** At most one character, of class [p]. *)
Definition optional (p : ascii -> bool) (s : string) : Prop :=
  s = "" \/ exists c, p c = true /\ s = String c "".

(** One or more digits. *)
Definition digits (s : string) : Prop := s <> "" /\ all isDigit s = true.

Definition isMinus (c : ascii) : bool := Ascii.eqb c "-".
Definition isPlusOrMinus (c : ascii) : bool := Ascii.eqb c "+" || Ascii.eqb c "-".

(** A data frame: an optional leading sign or white space, one or more
    digits, a decimal point, one or more digits, optional trailing white
    space, an optional unit letter.  [isSign] says which characters are
    signs. *)
Definition framed (isSign : ascii -> bool) (t lead ip fp sp u : string) : Prop :=
  t = lead ++ ip ++ "." ++ fp ++ sp ++ u
  /\ optional (fun c => isSign c || isWhiteSpace c) lead
  /\ digits ip /\ digits fp
  /\ optional isWhiteSpace sp
  /\ optional isUnitLetter u.

(** The unit read off the last character of a line. *)
Definition unitOf (t : string) : string :=
  match String.get (String.length t - 1) t with
  | Some c => if isUnitLetter c then String c "" else ""
  | None => ""
  end.

(** The readings of a list of lines, in order. *)
Definition lineReadings (lines : list string) : list Reading :=
  flat_map (fun line => match processLine line with
                        | Some r => [r]
                        | None => []
                        end) lines.

(** The world after the readings [rs] have been emitted, in order. *)
Definition emitReadings (rs : list Reading) (w : World) : World :=
  {| portTemperature := portTemperature w; buffer := buffer w;
     readingInterval := readingInterval w; ports := ports w;
     intervals := intervals w; nextHandle := nextHandle w; now := now w;
     trace := trace w
              ++ map (fun r => (now w, Emit (serialDataTemperature r))) rs |}.

(** The first character of a string, if any, is of class [p]. *)
Definition startsWith (p : ascii -> bool) (s : string) : bool :=
  match s with
  | String c _ => p c
  | "" => false
  end.

(** [s.includes('\r\n')]. *)
Fixpoint includes_CRLF (s : string) : bool :=
  match s with
  | "" => false
  | String _ rest => String.prefix CRLF s || includes_CRLF rest
  end.

(** [s] holds no line terminator. *)
Definition noCRLF (s : string) : Prop := forall a b, s <> a ++ CRLF ++ b.

(** [b] is what follows the last line terminator of [stream], or all of
    [stream] when it has none. *)
Definition unterminatedTail (stream b : string) : Prop :=
  noCRLF b /\ (stream = b \/ exists pre, stream = pre ++ CRLF ++ b).

(** The terminated lines of [s], in order. *)
Definition completeLines (s : string) : list string := removelast (split_CRLF s).

(** The state of the instance is tidy: every port but the current one is
    closed, the only active timer is the one the instance holds the handle
    of, and there is none while the current port is still being opened. *)
Definition statusOf (p : nat) (w : World) : option PortStatus :=
  option_map status (lookup_port p w).

Definition tidy (w : World) : Prop :=
  (forall p, portTemperature w <> Some p ->
             statusOf p w = None \/ statusOf p w = Some Closed)
  /\ match readingInterval w with
     | Some h => exists d, intervals w = [{| handle := h; due := d; period := 524 |}]
                           /\ (now w < d <= now w + 524)%Z
     | None => intervals w = []
     end
  /\ (forall p, portTemperature w = Some p -> statusOf p w = Some Opening ->
                readingInterval w = None)
  /\ (forall p, portTemperature w = Some p -> p < List.length (ports w)).

(** The current port is not in the middle of being opened. *)
Definition settled (w : World) : bool :=
  match portTemperature w with
  | Some p => match statusOf p w with
              | Some Opening => false
              | _ => true
              end
  | None => true
  end.

(** [initialize] is never called while the port of the previous call is
    still being opened. *)
Fixpoint paced (w : World) (acts : list Action) : bool :=
  match acts with
  | [] => true
  | a :: acts' =>
      match a with
      | Initialize _ _ => settled w
      | _ => true
      end && paced (step w a) acts'
  end.

(** Every active timer is the one the instance holds the handle of. *)
Definition timersTracked (w : World) : bool :=
  forallb (fun i => match readingInterval w with
                    | Some h => Nat.eqb (handle i) h
                    | None => false
                    end) (intervals w).


(** Two worlds agree on what drives the poll: the current port, the active
    timers and the clock. *)
Definition sameClockwork (w1 w2 : World) : Prop :=
  portTemperature w1 = portTemperature w2
  /\ intervals w1 = intervals w2
  /\ now w1 = now w2.

(** The writes of [w'] are those of [w] followed by [added]. *)
Definition writesAdded (w w' : World) (added : list (Z * nat * string)) : Prop :=
  writes w' = (writes w ++ added)%list.

(* ================================================================== *)
(** ** Strings                                                          *)
(* ================================================================== *)

Section Strings.

Lemma append_nil_r (s : string) : s ++ "" = s.
Proof. induction s as [|c s IH]; simpl; [reflexivity | now rewrite IH]. Qed.

Lemma append_assoc (s1 s2 s3 : string) : (s1 ++ s2) ++ s3 = s1 ++ s2 ++ s3.
Proof. induction s1 as [|c s1 IH]; simpl; [reflexivity | now rewrite IH]. Qed.

(** Induction two characters at a time, the way [split_CRLF] recurses. *)
Lemma string_pair_ind (P : string -> Prop) :
  P "" ->
  (forall c, P (String c "")) ->
  (forall c d s, P s -> P (String d s) -> P (String c (String d s))) ->
  forall s, P s.
Proof.
  intros H0 H1 H2 s.
  assert (H : P s /\ forall c, P (String c s)).
  { induction s as [|d s [IHa IHb]].
    - split; [exact H0 | exact H1].
    - split; [apply IHb | intro c; apply H2; [exact IHa | apply IHb]]. }
  apply H.
Qed.

Lemma toString_ascii_app (d1 d2 : list byte) :
  toString_ascii (d1 ++ d2)%list = toString_ascii d1 ++ toString_ascii d2.
Proof. induction d1 as [|b d1 IH]; simpl; [reflexivity | now rewrite IH]. Qed.

End Strings.

(* ================================================================== *)
(** ** [split] on the line terminator                                   *)
(* ================================================================== *)

Section Split.

Lemma split_CRLF_step (c d : ascii) (s : string) :
  split_CRLF (String c (String d s)) =
  if Ascii.eqb c CR && Ascii.eqb d LF
  then "" :: split_CRLF s
  else cons_head c (split_CRLF (String d s)).
Proof. reflexivity. Qed.

Lemma split_CRLF_nonempty (s : string) : split_CRLF s <> [].
Proof.
  induction s as [| c | c d s _ IH] using string_pair_ind;
    [discriminate | discriminate |].
  rewrite split_CRLF_step.
  destruct (Ascii.eqb c CR && Ascii.eqb d LF); [discriminate|].
  destruct (split_CRLF (String d s)); [congruence | discriminate].
Qed.

(** Text appended to [s] only touches the last segment of [s]. *)
Lemma split_CRLF_app (s c : string) :
  split_CRLF (s ++ c) =
  (removelast (split_CRLF s) ++ split_CRLF (last (split_CRLF s) "" ++ c))%list.
Proof.
  induction s as [| x | x y s IHs IHys] using string_pair_ind.
  - reflexivity.
  - reflexivity.
  - change (String x (String y s) ++ c) with (String x (String y (s ++ c))).
    rewrite !split_CRLF_step.
    destruct (Ascii.eqb x CR && Ascii.eqb y LF) eqn:E.
    + pose proof (split_CRLF_nonempty s) as Hne.
      destruct (split_CRLF s) as [|t l] eqn:Es; [congruence|].
      rewrite IHs. reflexivity.
    + change (String y (s ++ c)) with (String y s ++ c).
      rewrite IHys.
      pose proof (split_CRLF_nonempty (String y s)) as Hne.
      destruct (split_CRLF (String y s)) as [|t [|t' l]] eqn:Es; [congruence| |].
      * (* a single segment: [String y s] itself *)
        simpl removelast. simpl last. simpl app.
        assert (Ht : exists t0, t = String y t0).
        { revert Es. destruct s as [|z s].
          - intros [= <-]. now exists "".
          - rewrite split_CRLF_step.
            destruct (Ascii.eqb y CR && Ascii.eqb z LF).
            + intros [= _ Hs]. now apply split_CRLF_nonempty in Hs.
            + destruct (split_CRLF (String z s)) as [|u [|u' l']]; simpl;
                try discriminate.
              * intros [= <-]. now eexists.
              * intros [= <-]. now eexists. }
        destruct Ht as [t0 ->].
        cbn [append]. rewrite E. reflexivity.
      * change (removelast (t :: t' :: l)) with (t :: removelast (t' :: l)).
        change (cons_head x (t :: t' :: l)) with (String x t :: t' :: l).
        change (removelast (String x t :: t' :: l))
          with (String x t :: removelast (t' :: l)).
        change (last (String x t :: t' :: l) "") with (last (t' :: l) "").
        change (last (t :: t' :: l) "") with (last (t' :: l) "").
        reflexivity.
Qed.

End Split.

Section Segments.

Lemma noCRLF_nil : noCRLF "".
Proof. intros [|c a] b; discriminate. Qed.

Lemma noCRLF_cons (c : ascii) (t : string) :
  noCRLF t -> (c = CR -> forall b, t <> String LF b) -> noCRLF (String c t).
Proof.
  intros Ht Hc [|x a] b; cbn [append CRLF].
  - intros [= -> ->]. now apply (Hc eq_refl b).
  - intros [= _ ->]. now apply (Ht a b).
Qed.

Lemma split_CRLF_head (d : ascii) (s : string) :
  exists t l, split_CRLF (String d s) = t :: l
              /\ (t = "" /\ d = CR \/ exists t0, t = String d t0).
Proof.
  destruct s as [|z s].
  - exists (String d ""), []. split; [reflexivity | right; now eexists].
  - rewrite split_CRLF_step.
    destruct (Ascii.eqb d CR && Ascii.eqb z LF) eqn:E.
    + apply andb_true_iff in E as [E _]. apply Ascii.eqb_eq in E.
      exists "", (split_CRLF s). split; [reflexivity | now left].
    + destruct (split_CRLF (String z s)) as [|u l]; cbn [cons_head];
        eexists _, _; (split; [reflexivity | right; now eexists]).
Qed.

Lemma split_CRLF_segments (s : string) : Forall noCRLF (split_CRLF s).
Proof.
  induction s as [| c | c d s IHs IHds] using string_pair_ind.
  - repeat constructor. apply noCRLF_nil.
  - repeat constructor. apply noCRLF_cons; [apply noCRLF_nil | discriminate].
  - rewrite split_CRLF_step.
    destruct (Ascii.eqb c CR && Ascii.eqb d LF) eqn:E.
    + constructor; [apply noCRLF_nil | exact IHs].
    + destruct (split_CRLF_head d s) as (t & l & Es & Ht).
      rewrite Es in *. cbn [cons_head].
      inversion IHds as [|? ? Hnt Hl]; subst.
      constructor; [|exact Hl].
      apply noCRLF_cons; [exact Hnt|].
      intros -> b ->.
      destruct Ht as [[Ht _] | [t0 Ht]]; [discriminate|].
      injection Ht as <- _. discriminate E.
Qed.

Lemma concat_cons_head (c : ascii) (l : list string) :
  l <> [] -> String.concat CRLF (cons_head c l) = String c (String.concat CRLF l).
Proof. destruct l as [|t [|t' l]]; cbn; congruence. Qed.

(** Joining the segments with the terminator gives the text back. *)
Lemma split_CRLF_join (s : string) : String.concat CRLF (split_CRLF s) = s.
Proof.
  induction s as [| c | c d s IHs IHds] using string_pair_ind;
    [reflexivity | reflexivity |].
  rewrite split_CRLF_step.
  destruct (Ascii.eqb c CR && Ascii.eqb d LF) eqn:E.
  - apply andb_true_iff in E as [Ec Ed].
    apply Ascii.eqb_eq in Ec, Ed. subst c d.
    pose proof (split_CRLF_nonempty s) as Hne.
    destruct (split_CRLF s) as [|t l]; [congruence|].
    change (String.concat CRLF ("" :: t :: l))
      with (CRLF ++ String.concat CRLF (t :: l)).
    now rewrite IHs.
  - rewrite concat_cons_head by apply split_CRLF_nonempty. now rewrite IHds.
Qed.

Lemma concat_snoc (l : list string) (x : string) :
  l <> [] ->
  String.concat CRLF (l ++ [x])%list = String.concat CRLF l ++ CRLF ++ x.
Proof.
  induction l as [|t l IH]; [congruence|]. intros _.
  destruct l as [|t' l]; [reflexivity|].
  change (String.concat CRLF ((t :: t' :: l) ++ [x])%list)
    with (t ++ CRLF ++ String.concat CRLF ((t' :: l) ++ [x])%list).
  rewrite IH by discriminate.
  change (String.concat CRLF (t :: t' :: l))
    with (t ++ CRLF ++ String.concat CRLF (t' :: l)).
  now rewrite !append_assoc.
Qed.

Lemma split_CRLF_snoc (s : string) :
  split_CRLF s = (completeLines s ++ [last (split_CRLF s) ""])%list.
Proof. apply app_removelast_last, split_CRLF_nonempty. Qed.

(** The last segment is what follows the last terminator. *)
Lemma last_segment_tail (s : string) :
  unterminatedTail s (last (split_CRLF s) "").
Proof.
  split.
  - pose proof (split_CRLF_segments s) as H.
    rewrite split_CRLF_snoc in H. apply Forall_app in H as [_ H].
    now inversion H.
  - pose proof (split_CRLF_join s) as H. rewrite split_CRLF_snoc in H.
    destruct (completeLines s) as [|t l] eqn:E.
    + left. now rewrite <- H at 1.
    + right. exists (String.concat CRLF (t :: l)).
      rewrite <- H at 1. apply concat_snoc. discriminate.
Qed.

(** Text without a terminator is one segment. *)
Lemma split_CRLF_flat (b : string) : noCRLF b -> split_CRLF b = [b].
Proof.
  intros Hb. pose proof (split_CRLF_join b) as H.
  rewrite split_CRLF_snoc in H.
  rewrite split_CRLF_snoc.
  destruct (completeLines b) as [|t l] eqn:E.
  - cbn in H |- *. now rewrite H.
  - rewrite concat_snoc in H by discriminate. symmetry in H.
    now apply Hb in H.
Qed.

(** The tail is unique: a terminator cannot overlap itself. *)
Lemma unterminatedTail_unique (s b1 b2 : string) :
  unterminatedTail s b1 -> unterminatedTail s b2 -> b1 = b2.
Proof.
  revert b1 b2.
  assert (key : forall pre1 pre2 b1 b2,
             noCRLF b1 -> noCRLF b2 ->
             pre1 ++ CRLF ++ b1 = pre2 ++ CRLF ++ b2 -> b1 = b2).
  { induction pre1 as [|c pre1 IH]; intros [|c2 pre2] b1 b2 H1 H2 E.
    - now injection E.
    - cbn in E. injection E as Hc E. subst c2.
      destruct pre2 as [|c3 pre2]; cbn in E.
      + cbv in E. discriminate E.
      + injection E as Hc E. subst c3. now apply H1 in E.
    - cbn in E. injection E as Hc E. subst c.
      destruct pre1 as [|c3 pre1]; cbn in E.
      + cbv in E. discriminate E.
      + injection E as Hc E. subst c3. symmetry in E. now apply H2 in E.
    - cbn in E. injection E as _ E. now apply (IH pre2). }
  intros b1 b2 [H1 [E1 | [p1 E1]]] [H2 [E2 | [p2 E2]]].
  - congruence.
  - rewrite E1 in E2. now apply H1 in E2.
  - rewrite E2 in E1. now apply H2 in E1.
  - apply (key p1 p2); congruence.
Qed.

End Segments.

(* ================================================================== *)
(** ** The line buffer                                                  *)
(* ================================================================== *)

Section LineBuffer.

Lemma world_eta (w : World) :
  {| portTemperature := portTemperature w; buffer := buffer w;
     readingInterval := readingInterval w; ports := ports w;
     intervals := intervals w; nextHandle := nextHandle w; now := now w;
     trace := trace w |} = w.
Proof. now destruct w. Qed.

Lemma emitReadings_nil (w : World) : emitReadings [] w = w.
Proof. unfold emitReadings. cbn [map]. rewrite app_nil_r. apply world_eta. Qed.

Lemma emitReadings_app (rs1 rs2 : list Reading) (w : World) :
  emitReadings (rs1 ++ rs2) w = emitReadings rs2 (emitReadings rs1 w).
Proof. unfold emitReadings. cbn. now rewrite map_app, app_assoc. Qed.

Lemma processLines_emit (lines : list string) (w : World) :
  processLines lines w = emitReadings (lineReadings lines) w.
Proof.
  revert w. induction lines as [|line lines IH]; intros w.
  - symmetry. apply emitReadings_nil.
  - unfold processLines in *. cbn [fold_left]. rewrite IH.
    unfold lineReadings. cbn [flat_map].
    rewrite emitReadings_app.
    destruct (processLine line) as [r|].
    + reflexivity.
    + now rewrite emitReadings_nil.
Qed.

Lemma lineReadings_app (l1 l2 : list string) :
  lineReadings (l1 ++ l2) = (lineReadings l1 ++ lineReadings l2)%list.
Proof. apply flat_map_app. Qed.

Lemma last_default {A} (l : list A) (a b : A) :
  l <> [] -> last l a = last l b.
Proof.
  induction l as [|x l IH]; [congruence|]. intros _.
  destruct l as [|y l]; [reflexivity|]. apply IH. discriminate.
Qed.

Lemma last_app_nonempty {A} (l1 l2 : list A) (d : A) :
  l2 <> [] -> last (l1 ++ l2) d = last l2 d.
Proof.
  intros H. induction l1 as [|x l1 IH]; [reflexivity|].
  cbn [app]. destruct (l1 ++ l2)%list eqn:E; [|exact IH].
  apply app_eq_nil in E as [_ E]. congruence.
Qed.

Lemma pop_split_CRLF (s : string) :
  pop (split_CRLF s) = (Some (last (split_CRLF s) ""), completeLines s).
Proof.
  unfold completeLines, pop.
  pose proof (split_CRLF_nonempty s) as Hne.
  destruct (split_CRLF s) as [|t l]; [congruence|].
  f_equal. f_equal. destruct l as [|u l]; [reflexivity|].
  change (last (t :: u :: l) "") with (last (u :: l) "").
  apply last_default. discriminate.
Qed.

Lemma or_empty_Some (s : string) : or_empty (Some s) = s.
Proof. now destruct s. Qed.

(** One pass of the ['data'] handler in closed form. *)
Lemma onData_emit (data : list byte) (w : World) :
  let s := buffer w ++ toString_ascii data in
  onData data w =
  emitReadings (lineReadings (completeLines s))
    (set_buffer (last (split_CRLF s) "") w).
Proof.
  cbv zeta. unfold onData, processBuffer. cbn [buffer set_buffer].
  rewrite pop_split_CRLF, or_empty_Some. apply processLines_emit.
Qed.

Lemma completeLines_app (s c : string) :
  completeLines (s ++ c) =
  (completeLines s ++ completeLines (last (split_CRLF s) "" ++ c))%list.
Proof.
  unfold completeLines. rewrite split_CRLF_app.
  apply removelast_app, split_CRLF_nonempty.
Qed.

Lemma last_split_CRLF_app (s c : string) :
  last (split_CRLF (s ++ c)) "" =
  last (split_CRLF (last (split_CRLF s) "" ++ c)) "".
Proof. rewrite split_CRLF_app. apply last_app_nonempty, split_CRLF_nonempty. Qed.

(** Any number of passes in closed form: the chunks only matter through
    their concatenation. *)
Lemma deliver_emit (chunks : list (list byte)) (w : World) :
  noCRLF (buffer w) ->
  let s := buffer w ++ toString_ascii (List.concat chunks) in
  deliver chunks w =
  emitReadings (lineReadings (completeLines s))
    (set_buffer (last (split_CRLF s) "") w).
Proof.
  cbv zeta. revert w.
  induction chunks as [|data chunks IH]; intros w Hw.
  - cbn. rewrite append_nil_r. unfold completeLines.
    rewrite (split_CRLF_flat _ Hw). cbn.
    rewrite emitReadings_nil. unfold set_buffer. symmetry. apply world_eta.
  - cbn [deliver fold_left List.concat].
    change (fold_left (fun w0 d => onData d w0) chunks (onData data w))
      with (deliver chunks (onData data w)).
    rewrite onData_emit.
    set (s1 := buffer w ++ toString_ascii data).
    rewrite IH by (cbn; apply last_segment_tail).
    cbn [buffer emitReadings set_buffer].
    rewrite toString_ascii_app, <- append_assoc. fold s1.
    rewrite (completeLines_app s1), (last_split_CRLF_app s1), lineReadings_app.
    unfold emitReadings, set_buffer. cbn.
    now rewrite map_app, app_assoc.
Qed.

End LineBuffer.

(* ================================================================== *)
(** ** What each operation leaves alone                                 *)
(* ================================================================== *)

(** Reduce the field updates, and nothing else. *)
Ltac fields :=
  cbn [buffer portTemperature readingInterval ports intervals nextHandle now
       trace set_portTemperature set_buffer set_readingInterval set_ports
       set_intervals set_nextHandle set_now perform emit fst snd].

Ltac fields_in H :=
  cbn [buffer portTemperature readingInterval ports intervals nextHandle now
       trace set_portTemperature set_buffer set_readingInterval set_ports
       set_intervals set_nextHandle set_now perform emit fst snd] in H.

Section Frames.

Lemma stop_buffer (w : World) : buffer (stopTemperatureReading w) = buffer w.
Proof. unfold stopTemperatureReading. now destruct (readingInterval w). Qed.

Lemma initialize_buffer (portName : string) (options : HH42Options) (w : World) :
  buffer (initializeSerialPort portName options w) = buffer w.
Proof.
  unfold initializeSerialPort, new_SerialPort. fields.
  destruct (openPort (stopTemperatureReading w)); unfold port_close; fields;
    apply stop_buffer.
Qed.

Lemma enterHostMode_buffer (w : World) : buffer (enterHostMode w) = buffer w.
Proof. unfold enterHostMode. now destruct (openPort w). Qed.

Lemma requestTemperatureReading_buffer (w : World) :
  buffer (requestTemperatureReading w) = buffer w.
Proof. unfold requestTemperatureReading. now destruct (openPort w). Qed.

Lemma onOpen_buffer (portName : string) (w : World) :
  buffer (onOpen portName w) = buffer w.
Proof.
  unfold onOpen. fields.
  now rewrite requestTemperatureReading_buffer, enterHostMode_buffer.
Qed.

Lemma port_opened_buffer (p : nat) (w : World) : buffer (port_opened p w) = buffer w.
Proof.
  unfold port_opened. destruct (lookup_port p w) as [port|]; [|reflexivity].
  destruct (status port); try reflexivity. now rewrite onOpen_buffer.
Qed.

Lemma port_failed_buffer (p : nat) (m : string) (w : World) :
  buffer (port_failed p m w) = buffer w.
Proof.
  unfold port_failed, onError. destruct (lookup_port p w) as [port|]; [|reflexivity].
  now destruct (status port).
Qed.

Lemma pollTick_buffer (w : World) : buffer (pollTick w) = buffer w.
Proof. unfold pollTick. now destruct (portTemperature w). Qed.

Lemma fire_buffer (w : World) (i : Interval) : buffer (fire w i) = buffer w.
Proof.
  unfold fire. destruct (Z.eqb (due i) (now w)); [|reflexivity].
  now rewrite pollTick_buffer.
Qed.

Lemma fires_buffer (l : list Interval) (w : World) :
  buffer (fold_left fire l w) = buffer w.
Proof.
  revert w. induction l as [|i l IH]; intros w; [reflexivity|].
  cbn [fold_left]. now rewrite IH, fire_buffer.
Qed.

Lemma elapse_buffer (ms : nat) (w : World) : buffer (elapse ms w) = buffer w.
Proof.
  revert w. induction ms as [|ms IH]; intros w; [reflexivity|].
  cbn [elapse]. rewrite IH. unfold elapse1. now rewrite fires_buffer.
Qed.

Lemma onData_buffer (data : list byte) (w : World) :
  buffer (onData data w) = last (split_CRLF (buffer w ++ toString_ascii data)) "".
Proof. now rewrite onData_emit. Qed.

Lemma run_snoc (acts : list Action) (a : Action) (w : World) :
  run (acts ++ [a]) w = step (run acts w) a.
Proof. unfold run. now rewrite fold_left_app. Qed.

Lemma received_snoc (acts : list Action) (a : Action) :
  received (acts ++ [a]) =
  (received acts ++ match a with Data _ d => d | _ => [] end)%list.
Proof.
  induction acts as [|b acts IH]; cbn.
  - destruct a; cbn; now rewrite ?app_nil_r.
  - destruct b; rewrite IH; try reflexivity. now rewrite app_assoc.
Qed.

(** The buffer is always the last segment of everything received. *)
Lemma buffer_run (acts : list Action) :
  buffer (run acts initial) =
  last (split_CRLF (toString_ascii (received acts))) "".
Proof.
  induction acts as [|a acts IH] using rev_ind; [reflexivity|].
  rewrite run_snoc, received_snoc.
  destruct a; cbn [step];
    rewrite ?app_nil_r, ?initialize_buffer, ?stop_buffer, ?port_opened_buffer,
      ?port_failed_buffer, ?elapse_buffer; try exact IH.
  rewrite onData_buffer, IH, toString_ascii_app.
  symmetry. apply last_split_CRLF_app.
Qed.

End Frames.

(* ================================================================== *)
(** ** The matcher decides the language                                 *)
(* ================================================================== *)

Lemma append_eq_nil (s1 s2 : string) : s1 ++ s2 = "" -> s1 = "" /\ s2 = "".
Proof. destruct s1; [auto | discriminate]. Qed.

Lemma append_eq_cons (s1 s2 : string) (c : ascii) (s : string) :
  s1 ++ s2 = String c s ->
  (s1 = "" /\ s2 = String c s) \/ (exists s1', s1 = String c s1' /\ s = s1' ++ s2).
Proof.
  destruct s1 as [|d s1]; cbn.
  - auto.
  - intros [= -> <-]. right. now exists s1.
Qed.

Ltac inv H := inversion H; subst; clear H.

Ltac split_word :=
  match goal with
  | E : _ ++ _ = "" |- _ => apply append_eq_nil in E as [-> ->]
  | E : _ ++ _ = String _ _ |- _ =>
      apply append_eq_cons in E as [[-> ->] | (? & -> & ->)]
  end.

Section Matcher.

Lemma nullable_lang (r : regex) : nullable r = true <-> lang r "".
Proof.
  induction r as [| | p | r1 IH1 r2 IH2 | r1 IH1 r2 IH2 | r IH]; cbn.
  - split; [discriminate | inversion 1].
  - split; [constructor | reflexivity].
  - split; [discriminate | inversion 1].
  - rewrite andb_true_iff, IH1, IH2. split.
    + intros [H1 H2]. exact (L_cat _ _ "" "" H1 H2).
    + intros H. inv H. split_word. auto.
  - rewrite orb_true_iff, IH1, IH2. split.
    + intros [H|H]; [now apply L_alt_l | now apply L_alt_r].
    + intros H. inv H; auto.
  - split; [constructor | reflexivity].
Qed.

(** The words of [Star r] that begin with [c]. *)
Lemma lang_star_cons (r : regex) (c : ascii) (s : string) :
  lang (Star r) (String c s) ->
  exists s1 s2, s = s1 ++ s2 /\ lang r (String c s1) /\ lang (Star r) s2.
Proof. intros H. inv H. now eexists _, _. Qed.

Lemma lang_cat_deriv (r1 r2 : regex) (c : ascii) (s : string) :
  (forall s', lang (deriv c r1) s' <-> lang r1 (String c s')) ->
  lang (Cat (deriv c r1) r2) s <->
  exists s1 s2, s = s1 ++ s2 /\ lang r1 (String c s1) /\ lang r2 s2.
Proof.
  intros IH. split.
  - intros H. inv H. eexists _, _. split; [reflexivity|]. split; [|eassumption].
    now apply IH.
  - intros (s1 & s2 & -> & H1 & H2). constructor; [now apply IH | exact H2].
Qed.

Lemma lang_cat_cons (r1 r2 : regex) (c : ascii) (s : string) :
  lang (Cat r1 r2) (String c s) <->
  (lang r1 "" /\ lang r2 (String c s))
  \/ exists s1 s2, s = s1 ++ s2 /\ lang r1 (String c s1) /\ lang r2 s2.
Proof.
  split.
  - intros H. inv H. split_word.
    + left. now split.
    + right. now eexists _, _.
  - intros [[H1 H2] | (s1 & s2 & -> & H1 & H2)].
    + exact (L_cat _ _ "" _ H1 H2).
    + exact (L_cat _ _ (String c s1) _ H1 H2).
Qed.

Lemma deriv_lang (r : regex) (c : ascii) (s : string) :
  lang (deriv c r) s <-> lang r (String c s).
Proof.
  revert s.
  induction r as [| | p | r1 IH1 r2 IH2 | r1 IH1 r2 IH2 | r IH]; intros s; cbn.
  - split; inversion 1.
  - split; inversion 1.
  - destruct (p c) eqn:E; split; intros H; inv H.
    + now constructor.
    + constructor.
    + congruence.
  - rewrite lang_cat_cons. destruct (nullable r1) eqn:N.
    + split.
      * intros H. inv H.
        -- right. now apply (lang_cat_deriv r1 r2 c s IH1).
        -- left. split; [now apply nullable_lang | now apply IH2].
      * intros [[H1 H2] | H].
        -- apply L_alt_r. now apply IH2.
        -- apply L_alt_l. now apply (lang_cat_deriv r1 r2 c s IH1).
    + rewrite (lang_cat_deriv r1 r2 c s IH1). split; [now right|].
      intros [[H1 _] | H]; [|exact H].
      apply nullable_lang in H1. congruence.
  - split; intros H; inv H;
      solve [apply L_alt_l; now apply IH1 | apply L_alt_r; now apply IH2].
  - rewrite (lang_cat_deriv r (Star r) c s IH). split.
    + intros (s1 & s2 & -> & H1 & H2). exact (L_star_cons _ _ _ _ H1 H2).
    + apply lang_star_cons.
Qed.

Theorem test_lang (r : regex) (s : string) : test r s = true <-> lang r s.
Proof.
  revert r. induction s as [|c s IH]; intros r; cbn.
  - apply nullable_lang.
  - rewrite IH. apply deriv_lang.
Qed.

End Matcher.

(* ================================================================== *)
(** ** The words of the reading pattern                                 *)
(* ================================================================== *)

Section Pattern.

Lemma lang_class (p : ascii -> bool) (s : string) :
  lang (Class p) s <-> exists c, p c = true /\ s = String c "".
Proof.
  split.
  - intros H. inv H. eexists. split; [eassumption | reflexivity].
  - intros (c & H & ->). now constructor.
Qed.

Lemma lang_opt (p : ascii -> bool) (s : string) :
  lang (Opt (Class p)) s <-> optional p s.
Proof.
  unfold Opt, optional. split.
  - intros H. inv H.
    + right. now apply lang_class.
    + left. match goal with H : lang Eps _ |- _ => now inv H end.
  - intros [-> | H].
    + apply L_alt_r. constructor.
    + apply L_alt_l. now apply lang_class.
Qed.

Lemma lang_star_class (p : ascii -> bool) (s : string) :
  lang (Star (Class p)) s <-> all p s = true.
Proof.
  split.
  - remember (Star (Class p)) as r eqn:Er. intros H.
    induction H as [| | | | | | r0 c s1 s2 H1 _ H2 IH2]; try discriminate.
    + reflexivity.
    + injection Er as ->. inv H1. cbn.
      rewrite IH2 by reflexivity. now rewrite andb_true_r.
  - induction s as [|c s IH]; cbn.
    + constructor.
    + rewrite andb_true_iff. intros [Hc Hs].
      apply (L_star_cons (Class p) c "" s); [now constructor | now apply IH].
Qed.

Lemma lang_plus_digits (s : string) : lang (Plus (Class isDigit)) s <-> digits s.
Proof.
  unfold Plus, digits. split.
  - intros H. inv H.
    match goal with H : lang (Class _) _ |- _ =>
      apply lang_class in H as (c & Hc & ->) end.
    match goal with H : lang (Star _) _ |- _ => apply lang_star_class in H end.
    cbn. split; [discriminate|]. now apply andb_true_iff.
  - intros [Hne Hall]. destruct s as [|c s]; [congruence|].
    cbn in Hall. apply andb_true_iff in Hall as [Hc Hs].
    apply (L_cat _ _ (String c "") s);
      [now constructor | now apply lang_star_class].
Qed.

Lemma lang_cat (r1 r2 : regex) (s : string) :
  lang (Cat r1 r2) s <-> exists s1 s2, s = s1 ++ s2 /\ lang r1 s1 /\ lang r2 s2.
Proof.
  split.
  - intros H. inv H. now eexists _, _.
  - intros (s1 & s2 & -> & H1 & H2). now constructor.
Qed.

(** The pattern literal accepts exactly the frames with a minus for sign. *)
Lemma reading_pattern_framed (t : string) :
  test READING_PATTERN t = true <->
  exists lead ip fp sp u, framed isMinus t lead ip fp sp u.
Proof.
  rewrite test_lang. unfold READING_PATTERN, framed. split.
  - intros H.
    apply lang_cat in H as (lead & s1 & -> & Hl & H).
    apply lang_cat in H as (ip & s2 & -> & Hi & H).
    apply lang_cat in H as (pt & s3 & -> & Hp & H).
    apply lang_cat in H as (fp & s4 & -> & Hf & H).
    apply lang_cat in H as (sp & u & -> & Hs & Hu).
    apply lang_class in Hp as (c & Hc & ->).
    apply Ascii.eqb_eq in Hc. subst c.
    apply lang_opt in Hl, Hs, Hu. apply lang_plus_digits in Hi, Hf.
    exists lead, ip, fp, sp, u. repeat split; try assumption.
    all: try apply Hi; try apply Hf.
  - intros (lead & ip & fp & sp & u & -> & Hl & Hi & Hf & Hs & Hu).
    constructor; [now apply lang_opt|].
    constructor; [now apply lang_plus_digits|].
    apply (L_cat _ _ "." _); [constructor; reflexivity|].
    constructor; [now apply lang_plus_digits|].
    constructor; now apply lang_opt.
Qed.

End Pattern.

(* ================================================================== *)
(** ** [parseFloat] on a frame                                          *)
(* ================================================================== *)

(** Facts about single characters, by cases on the eight bits. *)
Ltac by_bits c :=
  destruct c as [[] [] [] [] [] [] [] []]; cbv; intros; repeat split;
  congruence.

Section Characters.

Lemma digit_not_space (c : ascii) : isDigit c = true -> isWhiteSpace c = false.
Proof. by_bits c. Qed.

Lemma digit_not_sign (c : ascii) :
  isDigit c = true -> Ascii.eqb c "-" = false /\ Ascii.eqb c "+" = false.
Proof. by_bits c. Qed.

Lemma digit_not_I (c : ascii) : isDigit c = true -> c <> "I"%char.
Proof. by_bits c. Qed.

Lemma space_not_digit (c : ascii) : isWhiteSpace c = true -> isDigit c = false.
Proof. by_bits c. Qed.

Lemma space_not_exponent (c : ascii) :
  isWhiteSpace c = true -> Ascii.eqb c "e" || Ascii.eqb c "E" = false.
Proof. by_bits c. Qed.

Lemma space_not_minus (c : ascii) : isWhiteSpace c = true -> Ascii.eqb c "-" = false.
Proof. by_bits c. Qed.

Lemma unit_not_digit (c : ascii) : isUnitLetter c = true -> isDigit c = false.
Proof. by_bits c. Qed.

Lemma unit_not_exponent (c : ascii) :
  isUnitLetter c = true -> Ascii.eqb c "e" || Ascii.eqb c "E" = false.
Proof. by_bits c. Qed.

End Characters.

Section ParseFloat.

Lemma takeDigits_app (ds rest : string) :
  all isDigit ds = true -> startsWith isDigit rest = false ->
  takeDigits (ds ++ rest) = (ds, rest).
Proof.
  intros Hds Hrest. induction ds as [|c ds IH]; cbn [append].
  - destruct rest as [|c rest]; [reflexivity|].
    cbn [startsWith] in Hrest. cbn [takeDigits]. now rewrite Hrest.
  - cbn [all] in Hds. apply andb_true_iff in Hds as [Hc Hds].
    cbn [takeDigits]. now rewrite Hc, IH.
Qed.

(** What may follow the fraction: nothing that continues the literal. *)
Lemma suffix_starts (sp u : string) :
  optional isWhiteSpace sp -> optional isUnitLetter u ->
  startsWith isDigit (sp ++ u) = false /\ exponentPart (sp ++ u) = 0%Z.
Proof.
  intros [-> | (c & Hc & ->)] [-> | (d & Hd & ->)];
    cbn [append startsWith exponentPart].
  - auto.
  - now rewrite unit_not_digit, unit_not_exponent.
  - now rewrite space_not_digit, space_not_exponent.
  - now rewrite space_not_digit, space_not_exponent.
Qed.

Lemma parseFloat_unsigned (ip fp sp u : string) :
  digits ip -> digits fp ->
  optional isWhiteSpace sp -> optional isUnitLetter u ->
  let s := ip ++ "." ++ fp ++ sp ++ u in
  trimStart s = s
  /\ takeSign s = (false, s)
  /\ forall neg,
       (if String.prefix "Infinity" s then Infinity neg
        else
          let (ip', s1) := takeDigits s in
          let (fp', s2) :=
            match s1 with
            | String c rest => if Ascii.eqb c "." then takeDigits rest else ("", s1)
            | "" => ("", s1)
            end in
          if isEmpty ip' && isEmpty fp' then NaN
          else decimal neg ip' fp' (exponentPart s2))
       = decimal neg ip fp 0.
Proof.
  intros [Hne Hip] [_ Hfp] Hsp Hu s.
  destruct (suffix_starts sp u Hsp Hu) as [Hd He].
  destruct ip as [|d ip]; [congruence|]. clear Hne.
  pose proof Hip as Hip'. cbn in Hip'. apply andb_true_iff in Hip' as [Hd0 _].
  destruct (digit_not_sign d Hd0) as [Hm Hp].
  split; [|split].
  - unfold s. cbn [append trimStart]. now rewrite (digit_not_space d Hd0).
  - unfold s. cbn [append takeSign]. now rewrite Hm, Hp.
  - intros neg.
    assert (Hpre : String.prefix "Infinity" s = false).
    { unfold s. cbn [append String.prefix].
      destruct (ascii_dec "I" d) as [E|E]; [|reflexivity].
      symmetry in E. now apply digit_not_I in E. }
    rewrite Hpre. unfold s.
    rewrite (takeDigits_app (String d ip) _ Hip) by reflexivity.
    cbn [append]. rewrite Ascii.eqb_refl.
    rewrite (takeDigits_app fp _ Hfp Hd), He. reflexivity.
Qed.

(** On a frame [parseFloat] yields the value of its numeric part. *)
Lemma parseFloat_framed (t lead ip fp sp u : string) :
  framed isMinus t lead ip fp sp u ->
  parseFloat t = decimal (String.eqb lead "-") ip fp 0.
Proof.
  intros (-> & Hl & Hip & Hfp & Hsp & Hu).
  destruct (parseFloat_unsigned ip fp sp u Hip Hfp Hsp Hu) as (Ht & Hs & Hv).
  unfold parseFloat.
  destruct Hl as [-> | (c & Hc & ->)].
  - change ("" ++ ?x) with x. rewrite Ht, Hs. apply Hv.
  - change (String c "" ++ ?x) with (String c x). cbn [trimStart].
    cbn beta in Hc. unfold isMinus in Hc.
    destruct (isWhiteSpace c) eqn:Hw.
    + rewrite Ht, Hs, Hv. cbn [String.eqb].
      now rewrite (space_not_minus c Hw).
    + rewrite orb_false_r in Hc.
      cbn [takeSign]. rewrite Hc, Hv. cbn [String.eqb]. now rewrite Hc.
Qed.

Lemma slice_last_get (t : string) :
  slice_last t =
  match String.get (String.length t - 1) t with
  | Some c => String c ""
  | None => ""
  end.
Proof.
  induction t as [|c t IH]; [reflexivity|].
  destruct t as [|d t]; [reflexivity|].
  change (slice_last (String c (String d t))) with (slice_last (String d t)).
  rewrite IH. cbn [String.length Nat.sub String.get].
  now rewrite Nat.sub_0_r.
Qed.

(** The unit [processBuffer] computes is the one read off the last
    character. *)
Lemma unit_of_last (t : string) :
  (if String.eqb (slice_last t) "C" || String.eqb (slice_last t) "F"
   then slice_last t else "") = unitOf t.
Proof.
  unfold unitOf. rewrite slice_last_get.
  destruct (String.get (String.length t - 1) t) as [c|]; [|reflexivity].
  cbn [String.eqb]. unfold isUnitLetter.
  now destruct (Ascii.eqb c "C"), (Ascii.eqb c "F").
Qed.

End ParseFloat.

(* ================================================================== *)
(** ** The poll timer                                                   *)
(* ================================================================== *)

Section PollTimer.


Lemma set_now_set_now (a b : Z) (w : World) :
  set_now a (set_now b w) = set_now a w.
Proof. reflexivity. Qed.

(** Without timers, time passes and nothing else happens. *)
Lemma elapse_idle (n : nat) (w : World) :
  intervals w = [] -> elapse n w = set_now (now w + Z.of_nat n) w.
Proof.
  revert w. induction n as [|n IH]; intros w Hw.
  - cbn. rewrite Z.add_0_r. unfold set_now. symmetry. apply world_eta.
  - cbn [elapse]. unfold elapse1. cbn [intervals set_now]. rewrite Hw.
    cbn [fold_left]. rewrite IH by exact Hw. cbn [now set_now].
    rewrite set_now_set_now. f_equal. lia.
Qed.




Lemma writes_of_app (t1 t2 : list (Z * Effect)) :
  writes_of (t1 ++ t2) = (writes_of t1 ++ writes_of t2)%list.
Proof.
  induction t1 as [|[time e] t1 IH]; [reflexivity|].
  destruct e; cbn; now rewrite IH.
Qed.


End PollTimer.

(* ================================================================== *)
(** ** The store of ports                                               *)
(* ================================================================== *)

(** Two worlds are equal when their fields are. *)
Lemma world_ext (w1 w2 : World) :
  portTemperature w1 = portTemperature w2 ->
  buffer w1 = buffer w2 ->
  readingInterval w1 = readingInterval w2 ->
  ports w1 = ports w2 ->
  intervals w1 = intervals w2 ->
  nextHandle w1 = nextHandle w2 ->
  now w1 = now w2 ->
  trace w1 = trace w2 ->
  w1 = w2.
Proof. destruct w1, w2; cbn; intros; subst; reflexivity. Qed.

Ltac records := apply world_ext; fields.

Section Store.

Lemma update_nth_length {A} (n : nat) (f : A -> A) (l : list A) :
  List.length (update_nth n f l) = List.length l.
Proof.
  revert n. induction l as [|x l IH]; intros [|n]; cbn; auto.
Qed.

Lemma nth_error_update_nth {A} (n m : nat) (f : A -> A) (l : list A) :
  nth_error (update_nth n f l) m =
  if Nat.eqb m n then option_map f (nth_error l m) else nth_error l m.
Proof.
  revert n m. induction l as [|x l IH]; intros [|n] [|m]; cbn; auto.
  all: now destruct (Nat.eqb _ _).
Qed.

Lemma statusOf_set_status (p q : nat) (s : PortStatus) (w : World) :
  statusOf q (set_ports (update_nth p (set_status s) (ports w)) w) =
  if Nat.eqb q p then option_map (fun _ => s) (statusOf q w) else statusOf q w.
Proof.
  unfold statusOf, lookup_port. fields. rewrite nth_error_update_nth.
  destruct (Nat.eqb q p); [|reflexivity]. now destruct (nth_error (ports w) q).
Qed.

Lemma statusOf_set_rts (p q : nat) (b : bool) (w : World) :
  statusOf q (set_ports (update_nth p (set_rts b) (ports w)) w) = statusOf q w.
Proof.
  unfold statusOf, lookup_port. fields. rewrite nth_error_update_nth.
  destruct (Nat.eqb q p); [|reflexivity]. now destruct (nth_error (ports w) q).
Qed.

Lemma statusOf_Some_lt (p : nat) (w : World) (s : PortStatus) :
  statusOf p w = Some s -> p < List.length (ports w).
Proof.
  unfold statusOf, lookup_port. intros H. apply nth_error_Some.
  now destruct (nth_error (ports w) p).
Qed.

(** [openPort] only looks at the field and at the status of the port. *)
Lemma openPort_statusOf (w : World) :
  openPort w =
  match portTemperature w with
  | Some p => match statusOf p w with Some Open => Some p | _ => None end
  | None => None
  end.
Proof.
  unfold openPort, statusOf, isOpen.
  destruct (portTemperature w) as [p|]; [|reflexivity].
  destruct (lookup_port p w) as [port|]; [|reflexivity]. cbn.
  now destruct (status port).
Qed.

Lemma openPort_Some (w : World) (p : nat) :
  openPort w = Some p <-> portTemperature w = Some p /\ statusOf p w = Some Open.
Proof.
  rewrite openPort_statusOf. destruct (portTemperature w) as [q|].
  - destruct (statusOf q w) as [[| |]|] eqn:E; split;
      try discriminate; try (intros [[= ->] H]; congruence).
    intros [= ->]. auto.
  - split; [discriminate | intros [H _]; discriminate].
Qed.

End Store.

(* ================================================================== *)
(** ** The methods, field by field                                      *)
(* ================================================================== *)

Section Methods.

Lemma stop_eq (w : World) :
  stopTemperatureReading w =
  {| portTemperature := portTemperature w; buffer := buffer w;
     readingInterval := None; ports := ports w;
     intervals := match readingInterval w with
                  | Some h => filter (fun i => negb (Nat.eqb (handle i) h)) (intervals w)
                  | None => intervals w
                  end;
     nextHandle := nextHandle w; now := now w; trace := trace w |}.
Proof.
  unfold stopTemperatureReading. destruct (readingInterval w) eqn:E.
  - reflexivity.
  - rewrite <- E. symmetry. apply world_eta.
Qed.

Lemma initialize_eq (portName : string) (options : HH42Options) (w : World) :
  initializeSerialPort portName options w =
  {| portTemperature := Some (List.length (ports w)); buffer := buffer w;
     readingInterval := None;
     ports := match openPort w with
              | Some p => update_nth p (set_status Closed) (ports w)
              | None => ports w
              end ++ [fresh portName options];
     intervals := intervals (stopTemperatureReading w);
     nextHandle := nextHandle w; now := now w;
     trace := trace w
              ++ match openPort w with
                 | Some p => [(now w, Close p)]
                 | None => []
                 end
              ++ [(now w, Construct (List.length (ports w)))] |}.
Proof.
  unfold initializeSerialPort, new_SerialPort.
  assert (Ho : openPort (stopTemperatureReading w) = openPort w)
    by now rewrite stop_eq.
  rewrite Ho.
  destruct (openPort w) as [p|]; unfold port_close; rewrite !stop_eq; records;
    rewrite ?update_nth_length, <- ?app_assoc; reflexivity.
Qed.

Lemma onOpen_eq (portName : string) (w : World) :
  onOpen portName w =
  match openPort w with
  | Some p =>
      {| portTemperature := portTemperature w; buffer := buffer w;
         readingInterval := Some (nextHandle w);
         ports := update_nth p (set_rts true) (ports w);
         intervals := intervals w
                      ++ [{| handle := nextHandle w; due := now w + POLL_PERIOD;
                             period := POLL_PERIOD |}];
         nextHandle := S (nextHandle w); now := now w;
         trace := trace w
                  ++ [(now w, ConsoleLog "Port opened successfully");
                      (now w, SetRTS p);
                      (now w, Emit (portOpenedTemperature portName))] |}
  | None =>
      {| portTemperature := portTemperature w; buffer := buffer w;
         readingInterval := readingInterval w; ports := ports w;
         intervals := intervals w; nextHandle := nextHandle w; now := now w;
         trace := trace w
                  ++ [(now w, ConsoleLog "Port opened successfully");
                      (now w, Emit (portOpenedTemperature portName))] |}
  end.
Proof.
  unfold onOpen.
  set (w1 := perform (ConsoleLog "Port opened successfully") w).
  assert (H1 : openPort w1 = openPort w) by reflexivity.
  unfold enterHostMode. rewrite H1.
  destruct (openPort w) as [p|] eqn:Ho.
  - assert (H2 : openPort (port_set_rts p w1) = Some p).
    { apply openPort_Some. apply openPort_Some in Ho as [Hp Hs].
      split; [exact Hp|]. unfold port_set_rts.
      change (statusOf p (perform (SetRTS p) ?x)) with (statusOf p x).
      now rewrite statusOf_set_rts. }
    unfold requestTemperatureReading. rewrite H2.
    unfold setInterval, port_set_rts, w1. records;
      rewrite <- ?app_assoc; reflexivity.
  - unfold requestTemperatureReading. rewrite H1.
    unfold w1. records; rewrite <- ?app_assoc; reflexivity.
Qed.

End Methods.

(* ================================================================== *)
(** ** Tidy states                                                      *)
(* ================================================================== *)

Section Tidy.

Lemma nth_error_snoc {A} (l : list A) (x : A) (q : nat) :
  nth_error (l ++ [x]) q =
  if (q <? List.length l)%nat then nth_error l q
  else if (q =? List.length l)%nat then Some x else None.
Proof.
  destruct (Nat.ltb_spec q (List.length l)) as [H|H].
  - now apply nth_error_app1.
  - rewrite nth_error_app2 by exact H.
    destruct (Nat.eqb_spec q (List.length l)) as [->|Hq].
    + now rewrite Nat.sub_diag.
    + destruct (q - List.length l) as [|[|n]] eqn:E; cbn; try reflexivity. lia.
Qed.

Lemma tidy_initial : tidy initial.
Proof.
  repeat split; cbn; try discriminate.
  intros p _. left. unfold statusOf, lookup_port. cbn. now destruct p.
Qed.

Lemma tidy_stop (w : World) : tidy w -> tidy (stopTemperatureReading w).
Proof.
  intros (HA & HB & HC & HD). rewrite stop_eq.
  repeat split; fields; auto.
  destruct (readingInterval w) as [h|]; [|exact HB].
  destruct HB as (d & -> & _). cbn. now rewrite Nat.eqb_refl.
Qed.

Lemma tidy_initialize (portName : string) (options : HH42Options) (w : World) :
  tidy w -> settled w = true -> tidy (initializeSerialPort portName options w).
Proof.
  intros (HA & HB & HC & HD) Hs. rewrite initialize_eq.
  set (P := match openPort w with
            | Some p => update_nth p (set_status Closed) (ports w)
            | None => ports w
            end).
  assert (HP : List.length P = List.length (ports w)).
  { unfold P. destruct (openPort w); [apply update_nth_length | reflexivity]. }
  assert (HPs : forall q, option_map status (nth_error P q) = None
                          \/ option_map status (nth_error P q) = Some Closed).
  { intros q. unfold P. pose proof (openPort_statusOf w) as Ho.
    destruct (openPort w) as [p|] eqn:E.
    - apply openPort_Some in E as [Hp _].
      rewrite nth_error_update_nth.
      destruct (Nat.eqb_spec q p) as [->|Hq].
      + destruct (nth_error (ports w) p); cbn; auto.
      + apply (HA q). congruence.
    - destruct (portTemperature w) as [p|] eqn:Hp.
      + destruct (Nat.eq_dec q p) as [->|Hq].
        * unfold settled in Hs. rewrite Hp in Hs.
          unfold statusOf, lookup_port in Hs, Ho.
          destruct (option_map status (nth_error (ports w) p)) as [[| |]|];
            auto; congruence.
        * apply (HA q). congruence.
      + apply (HA q). discriminate. }
  repeat split; fields.
  - intros q Hq. unfold statusOf, lookup_port. fields.
    rewrite nth_error_snoc, HP.
    destruct (q <? List.length (ports w))%nat; [apply HPs|].
    destruct (Nat.eqb_spec q (List.length (ports w))); [congruence | now left].
  - rewrite stop_eq. fields.
    destruct (readingInterval w) as [h|]; [|exact HB].
    destruct HB as (d & -> & _). cbn. now rewrite Nat.eqb_refl.
  - intros p [= <-]. rewrite length_app, HP. cbn. lia.
Qed.

Lemma tidy_closed (p : nat) (w : World) :
  tidy w -> tidy (set_ports (update_nth p (set_status Closed) (ports w)) w).
Proof.
  intros (HA & HB & HC & HD). repeat split; fields.
  - intros q Hq. rewrite statusOf_set_status.
    destruct (Nat.eqb_spec q p) as [->|Hqp]; [|now apply HA].
    destruct (statusOf p w); cbn; auto.
  - exact HB.
  - intros q Hq. rewrite statusOf_set_status.
    destruct (Nat.eqb_spec q p) as [->|Hqp]; [|now apply HC].
    destruct (statusOf p w); cbn; congruence.
  - intros q Hq. rewrite update_nth_length. now apply HD.
Qed.

Lemma tidy_port_opened (p : nat) (w : World) : tidy w -> tidy (port_opened p w).
Proof.
  intros Hw. pose proof Hw as (HA & HB & HC & HD). unfold port_opened.
  destruct (lookup_port p w) as [port|] eqn:Hl; [|exact Hw].
  destruct (status port) eqn:Hst; try exact Hw.
  assert (Hsp : statusOf p w = Some Opening).
  { unfold statusOf. now rewrite Hl; cbn; rewrite Hst. }
  assert (Hcur : portTemperature w = Some p).
  { destruct (portTemperature w) as [q|] eqn:Hq.
    - destruct (Nat.eq_dec q p) as [->|Hne]; [reflexivity|].
      destruct (HA p) as [H|H]; congruence.
    - destruct (HA p) as [H|H]; congruence. }
  pose proof (HC p Hcur Hsp) as Hri. rewrite Hri in HB.
  set (w1 := set_ports (update_nth p (set_status Open) (ports w)) w).
  assert (Ho : openPort w1 = Some p).
  { apply openPort_Some. split; [exact Hcur|]. unfold w1.
    now rewrite statusOf_set_status, Nat.eqb_refl, Hsp. }
  rewrite onOpen_eq, Ho. unfold w1. repeat split; fields.
  - intros q Hq.
    change (statusOf q ?x)
      with (statusOf q (set_ports (update_nth p (set_rts true) (ports w1)) w1)).
    rewrite statusOf_set_rts. unfold w1. rewrite statusOf_set_status.
    destruct (Nat.eqb_spec q p) as [->|Hqp]; [congruence | now apply HA].
  - exists (now w + POLL_PERIOD)%Z. rewrite HB. split; [reflexivity|].
    unfold POLL_PERIOD. lia.
  - intros q Hq.
    change (statusOf q ?x)
      with (statusOf q (set_ports (update_nth p (set_rts true) (ports w1)) w1)).
    rewrite statusOf_set_rts. unfold w1. rewrite statusOf_set_status.
    assert (q = p) by congruence. subst q.
    rewrite Nat.eqb_refl, Hsp. discriminate.
  - intros q Hq. rewrite !update_nth_length. now apply HD.
Qed.

Lemma tidy_onData (data : list byte) (w : World) : tidy w -> tidy (onData data w).
Proof. intros H. rewrite onData_emit. exact H. Qed.

Lemma tidy_port_failed (p : nat) (m : string) (w : World) :
  tidy w -> tidy (port_failed p m w).
Proof.
  intros Hw. unfold port_failed, onError.
  destruct (lookup_port p w) as [port|] eqn:Hl; [|exact Hw].
  destruct (status port) eqn:Hst; try exact Hw.
  now apply (tidy_closed p w).
Qed.

Lemma tidy_port_lost (p : nat) (w : World) : tidy w -> tidy (port_lost p w).
Proof.
  intros Hw. now apply tidy_closed.
Qed.

Lemma tidy_elapse1 (w : World) : tidy w -> tidy (elapse1 w).
Proof.
  intros (HA & HB & HC & HD).
  destruct (readingInterval w) as [h|] eqn:Hri.
  - destruct HB as (d & Hi & Hd).
    unfold elapse1. fields. rewrite Hi. cbn [fold_left]. unfold fire.
    fields. cbn [due handle period].
    destruct (Z.eqb_spec d (now w + 1)) as [->|Hne].
    + rewrite Hi. cbn [map handle due period]. rewrite Nat.eqb_refl.
      unfold pollTick. fields.
      destruct (portTemperature w) as [p|] eqn:Hp;
        (split; [|split; [|split]]; fields; rewrite ?Hp, ?Hri;
         [exact HA | | exact HC | exact HD]);
        (exists (now w + 1 + 524)%Z; split; [reflexivity | lia]).
    + split; [|split; [|split]]; fields; rewrite ?Hri;
        [exact HA | | exact HC | exact HD].
      exists d. split; [exact Hi | lia].
  - unfold elapse1. fields. rewrite HB. cbn [fold_left].
    split; [|split; [|split]]; fields; rewrite ?Hri;
      [exact HA | exact HB | exact HC | exact HD].
Qed.

Lemma tidy_elapse (ms : nat) (w : World) : tidy w -> tidy (elapse ms w).
Proof.
  revert w. induction ms as [|ms IH]; intros w Hw; [exact Hw|].
  cbn [elapse]. now apply IH, tidy_elapse1.
Qed.

Lemma tidy_step (w : World) (a : Action) :
  tidy w -> match a with Initialize _ _ => settled w | _ => true end = true ->
  tidy (step w a).
Proof.
  intros Hw Ha. destruct a; cbn [step].
  - now apply tidy_initialize.
  - now apply tidy_stop.
  - now apply tidy_port_opened.
  - now apply tidy_onData.
  - now apply tidy_port_failed.
  - now apply tidy_port_lost.
  - now apply tidy_elapse.
Qed.

Lemma tidy_run (acts : list Action) (w : World) :
  tidy w -> paced w acts = true -> tidy (run acts w).
Proof.
  revert w. induction acts as [|a acts IH]; intros w Hw Hp; [exact Hw|].
  cbn [paced] in Hp. apply andb_true_iff in Hp as [Ha Hp].
  cbn [run fold_left]. apply IH; [|exact Hp].
  now apply tidy_step.
Qed.

(** In a tidy state at most one port is open and at most one timer runs. *)
Lemma open_from_none (n : nat) (l : list SerialPort) :
  (forall q port, nth_error l q = Some port -> isOpen port = false) ->
  open_from n l = [].
Proof.
  revert n. induction l as [|x l IH]; intros n H; [reflexivity|].
  cbn [open_from]. rewrite (H 0 x eq_refl). apply IH.
  intros q port Hq. now apply (H (S q)).
Qed.

Lemma open_from_one (n : nat) (l : list SerialPort) (p : nat) :
  (forall q port, q <> p -> nth_error l q = Some port -> isOpen port = false) ->
  List.length (open_from n l) <= 1.
Proof.
  revert n p. induction l as [|x l IH]; intros n p H; [cbn; lia|].
  cbn [open_from]. destruct p as [|p].
  - rewrite (open_from_none (S n) l).
    + destruct (isOpen x); cbn; lia.
    + intros q port Hq. now apply (H (S q)).
  - rewrite (H 0 x) by (discriminate || reflexivity).
    apply (IH (S n) p). intros q port Hq. apply (H (S q)). lia.
Qed.

Lemma tidy_single (w : World) :
  tidy w -> List.length (intervals w) <= 1 /\ List.length (openPorts w) <= 1.
Proof.
  intros (HA & HB & HC & HD). split.
  - destruct (readingInterval w); [destruct HB as (d & -> & _) | rewrite HB];
      cbn; lia.
  - unfold openPorts.
    assert (H : forall q port, portTemperature w <> Some q ->
                  nth_error (ports w) q = Some port -> isOpen port = false).
    { intros q port Hq Hn. specialize (HA q Hq).
      unfold statusOf, lookup_port in HA. rewrite Hn in HA. cbn in HA.
      unfold isOpen. destruct HA as [HA|HA]; [discriminate|].
      injection HA as ->. reflexivity. }
    destruct (portTemperature w) as [p|].
    + apply (open_from_one 0 _ p). intros q port Hq. apply H. congruence.
    + rewrite open_from_none; [cbn; lia|]. intros q port. apply H. discriminate.
Qed.

End Tidy.

Section Opening.

Lemma stop_clears (w : World) :
  timersTracked w = true -> intervals (stopTemperatureReading w) = [].
Proof.
  unfold timersTracked. intros H. rewrite stop_eq. fields.
  destruct (readingInterval w) as [h|].
  - induction (intervals w) as [|i l IH]; [reflexivity|].
    cbn [forallb] in H. apply andb_true_iff in H as [Hi Hl].
    cbn [filter]. rewrite Hi. cbn [negb]. now apply IH.
  - destruct (intervals w); [reflexivity | discriminate].
Qed.





End Opening.

(* ================================================================== *)
(** ** Properties of the driver                                         *)
(* ================================================================== *)

Section Readings.

Lemma readings_of_app (t1 t2 : list (Z * Effect)) :
  readings_of (t1 ++ t2) = (readings_of t1 ++ readings_of t2)%list.
Proof.
  induction t1 as [|[time e] t1 IH]; [reflexivity|].
  destruct e as [[| |r]| | | | | |]; cbn; now rewrite IH.
Qed.

Lemma readings_of_emitted (time : Z) (rs : list Reading) :
  readings_of (map (fun r => (time, Emit (serialDataTemperature r))) rs) = rs.
Proof. induction rs as [|r rs IH]; cbn; [reflexivity | now rewrite IH]. Qed.

Lemma readings_emit (rs : list Reading) (w : World) :
  readings (emitReadings rs w) = (readings w ++ rs)%list.
Proof.
  unfold readings, emitReadings. fields.
  now rewrite readings_of_app, readings_of_emitted.
Qed.

Lemma includes_CRLF_noCRLF (s : string) : includes_CRLF s = false -> noCRLF s.
Proof.
  induction s as [|c s IH]; intros H; [apply noCRLF_nil|].
  cbn [includes_CRLF] in H. apply orb_false_iff in H as [Hp Hs].
  apply noCRLF_cons; [now apply IH|].
  intros -> b ->. destruct b; cbv in Hp; discriminate Hp.
Qed.

Lemma noCRLF_tail (c : ascii) (s : string) : noCRLF (String c s) -> noCRLF s.
Proof. intros H a b ->. now apply (H (String c a) b). Qed.

(** A terminator after text without one ends the first segment. *)
Lemma split_CRLF_terminated (x y : string) :
  noCRLF x -> split_CRLF (x ++ CRLF ++ y) = x :: split_CRLF y.
Proof.
  induction x as [|c x IH]; intros Hx.
  - reflexivity.
  - cbn [append]. destruct (x ++ CRLF ++ y) as [|d rest] eqn:E.
    + destruct x; discriminate E.
    + rewrite split_CRLF_step.
      destruct (Ascii.eqb c CR && Ascii.eqb d LF) eqn:T.
      * apply andb_true_iff in T as [Tc Td].
        apply Ascii.eqb_eq in Tc, Td. subst c d.
        destruct x as [|d x].
        -- cbv in E. discriminate E.
        -- cbn [append] in E. injection E as -> _.
           now elim (Hx "" x).
      * rewrite IH by now apply noCRLF_tail in Hx. reflexivity.
Qed.

End Readings.

Section ReadingRule.

Example line_prompt : processLine ">" = None.
Proof. reflexivity. Qed.

Example line_echo : processLine "T" = None.
Proof. reflexivity. Qed.

Example line_letters : processLine "abc" = None.
Proof. reflexivity. Qed.

Example line_no_point : processLine "12" = None.
Proof. reflexivity. Qed.

Example line_no_unit :
  processLine "36.6" = Some {| temperatureValue := Num 36.6; unit := "" |}.
Proof. reflexivity. Qed.

Example line_negative :
  processLine "-1.2" = Some {| temperatureValue := Num (-1.2); unit := "" |}.
Proof. reflexivity. Qed.

Example line_spaced :
  processLine " 98.6 F" = Some {| temperatureValue := Num 98.6; unit := "F" |}.
Proof. reflexivity. Qed.

(** C1, amended.  For every completed line, with [t] its trimmed text: when
    [t] is exactly [>] or [T] no reading is emitted; otherwise a reading [r]
    is emitted exactly when [t] is a frame (an optional leading minus sign
    or white space, digits, a point, digits, optional white space, an
    optional unit letter), and then its value is the decimal value of the
    numeric part and its unit is read off the last character of [t]; a line
    that is no frame yields nothing. *)
Theorem reading_rule (line : string) :
  let t := trim line in
  (t = ">" \/ t = "T" -> processLine line = None)
  /\ (t <> ">" -> t <> "T" ->
      forall r,
        processLine line = Some r <->
        exists lead ip fp sp u,
          framed isMinus t lead ip fp sp u
          /\ r = {| temperatureValue := decimal (String.eqb lead "-") ip fp 0;
                    unit := unitOf t |})
  /\ ((forall lead ip fp sp u, ~ framed isMinus t lead ip fp sp u) ->
      processLine line = None).
Proof.
  cbv zeta. unfold processLine. rewrite unit_of_last.
  set (t := trim line).
  split; [|split].
  - intros [-> | ->]; reflexivity.
  - intros H1 H2.
    apply String.eqb_neq in H1, H2. rewrite H1, H2. cbn [orb].
    intros r. destruct (test READING_PATTERN t) eqn:Ht.
    + apply reading_pattern_framed in Ht as (lead & ip & fp & sp & u & Hf).
      split.
      * intros [= <-]. exists lead, ip, fp, sp, u. split; [exact Hf|].
        now rewrite (parseFloat_framed _ _ _ _ _ _ Hf).
      * intros (lead' & ip' & fp' & sp' & u' & Hf' & ->).
        now rewrite (parseFloat_framed _ _ _ _ _ _ Hf').
    + split; [discriminate|].
      intros (lead & ip & fp & sp & u & Hf & _).
      assert (Hm : test READING_PATTERN t = true)
        by (apply reading_pattern_framed; now exists lead, ip, fp, sp, u).
      congruence.
  - intros Hn.
    destruct (String.eqb t ">" || String.eqb t "T"); [reflexivity|].
    destruct (test READING_PATTERN t) eqn:Ht; [|reflexivity].
    apply reading_pattern_framed in Ht as (lead & ip & fp & sp & u & Hf).
    now elim (Hn lead ip fp sp u).
Qed.

(** The rule at the line [23.5C]. *)
Lemma reading_rule_witness :
  trim "23.5C" <> ">" /\ trim "23.5C" <> "T"
  /\ processLine "23.5C"
     = Some {| temperatureValue := Num 23.5; unit := "C" |}.
Proof.
  split; [|split].
  - discriminate.
  - discriminate.
  - apply (proj1 (proj2 (reading_rule "23.5C"))).
    + discriminate.
    + discriminate.
    + exists "", "23", "5", "", "C". split; [|reflexivity].
      unfold framed, digits, optional. repeat split; try discriminate.
      * now left.
      * now left.
      * right. now exists "C"%char.
Defined.

(** C1 as stated fails for a leading plus sign: [+1.5] is a signed decimal
    number with one or more digits on each side of the point, and no
    reading is emitted for it. *)
Lemma plus_sign_counterexample :
  ~ ((exists r, processLine "+1.5" = Some r) <->
     (exists lead ip fp sp u,
        framed isPlusOrMinus (trim "+1.5") lead ip fp sp u)).
Proof.
  intros [_ H].
  destruct H as [r Hr]; [|discriminate Hr].
  exists "+", "1", "5", "", "". unfold framed, digits, optional.
  repeat split; try discriminate; try (now left).
  right. now exists "+"%char.
Qed.

End ReadingRule.

Section Chunks.

Lemma buffer_run_noCRLF (acts : list Action) : noCRLF (buffer (run acts initial)).
Proof. rewrite buffer_run. apply last_segment_tail. Qed.

(** C2.  The readings emitted for a sequence of bytes do not depend on how
    the bytes are cut into chunks: whatever happened before, two chunkings
    of the same bytes lead to the same world; the readings are those of the
    terminated lines of the buffered text followed by the bytes, one line
    after the other from left to right; and every chunking of
    [23.5C\r\n-1.0F\r\n] gives the reading 23.5 C and then -1.0 F. *)
Theorem chunking_irrelevant :
  (forall acts chunks1 chunks2,
      List.concat chunks1 = List.concat chunks2 ->
      deliver chunks1 (run acts initial) = deliver chunks2 (run acts initial))
  /\ (forall acts chunks,
         let w := run acts initial in
         readings (deliver chunks w) =
         (readings w
          ++ lineReadings
               (completeLines (buffer w ++ toString_ascii (List.concat chunks))))%list)
  /\ (forall chunks,
         List.concat chunks = bytes_of ("23.5C" ++ CRLF ++ "-1.0F" ++ CRLF) ->
         readings (deliver chunks initial) =
         [ {| temperatureValue := Num 23.5; unit := "C" |};
           {| temperatureValue := Num (-1.0); unit := "F" |} ]).
Proof.
  split; [|split].
  - intros acts chunks1 chunks2 H.
    rewrite !deliver_emit by apply buffer_run_noCRLF. now rewrite H.
  - intros acts chunks w. unfold w.
    rewrite deliver_emit by apply buffer_run_noCRLF.
    now rewrite readings_emit.
  - intros chunks H.
    rewrite deliver_emit by apply noCRLF_nil.
    rewrite readings_emit, H. reflexivity.
Qed.

(** Two ways of cutting the same fourteen bytes. *)
Lemma chunking_irrelevant_witness :
  let cut := [bytes_of "23"; bytes_of (".5C" ++ String CR "");
              bytes_of (String LF "-1.0F" ++ CRLF)] in
  let whole := [bytes_of ("23.5C" ++ CRLF ++ "-1.0F" ++ CRLF)] in
  List.concat cut = List.concat whole
  /\ deliver cut (run [] initial) = deliver whole (run [] initial)
  /\ readings (deliver cut initial) =
     [ {| temperatureValue := Num 23.5; unit := "C" |};
       {| temperatureValue := Num (-1.0); unit := "F" |} ].
Proof.
  cbv zeta. split; [reflexivity | split].
  - apply (proj1 chunking_irrelevant). reflexivity.
  - apply (proj2 (proj2 chunking_irrelevant)). reflexivity.
Defined.

(** C4.  From an empty buffer, the chunk [12.3] emits nothing and is kept;
    the chunk [4C\r\n] that follows emits the one reading 12.34 C and
    leaves the buffer empty. *)
Theorem partial_line_buffered (w : World) :
  buffer w = "" ->
  let w1 := onData (bytes_of "12.3") w in
  let w2 := onData (bytes_of ("4C" ++ CRLF)) w1 in
  readings w1 = readings w
  /\ buffer w1 = "12.3"
  /\ readings w2
     = (readings w ++ [ {| temperatureValue := Num 12.34; unit := "C" |} ])%list
  /\ buffer w2 = "".
Proof.
  intros Hb. cbv zeta.
  assert (H1 : onData (bytes_of "12.3") w = set_buffer "12.3" w).
  { rewrite onData_emit, Hb. cbn. rewrite emitReadings_nil. reflexivity. }
  rewrite H1. rewrite onData_emit. fields.
  repeat split.
  rewrite readings_emit. reflexivity.
Qed.

Lemma partial_line_buffered_witness :
  buffer initial = ""
  /\ readings (onData (bytes_of "12.3") initial) = []
  /\ readings (onData (bytes_of ("4C" ++ CRLF)) (onData (bytes_of "12.3") initial))
     = [ {| temperatureValue := Num 12.34; unit := "C" |} ].
Proof.
  split; [reflexivity|].
  destruct (partial_line_buffered initial eq_refl) as (H1 & _ & H2 & _).
  split; [exact H1 | exact H2].
Defined.

(** C6.  After every pass of the ['data'] handler the buffer is the
    unterminated tail of the text it was given: it holds no terminator, and
    it is what follows the last terminator (or the whole text when there is
    none).  So at any moment the buffer is the unterminated tail of all the
    bytes received so far. *)
Theorem line_buffer_invariant :
  (forall data w,
      unterminatedTail (buffer w ++ toString_ascii data) (buffer (onData data w)))
  /\ (forall acts,
         unterminatedTail (toString_ascii (received acts))
           (buffer (run acts initial))).
Proof.
  split.
  - intros data w. rewrite onData_buffer. apply last_segment_tail.
  - intros acts. rewrite buffer_run. apply last_segment_tail.
Qed.

End Chunks.

Section Polling.




(** C7.  [stopTemperatureReading] clears the handle; when a handle was
    stored, the timers under that handle are removed and no other; when none
    was stored nothing changes; the connection, the ports, the line buffer,
    the clock and the effects are never touched. *)
Theorem stop_frame (w : World) :
  let w' := stopTemperatureReading w in
  readingInterval w' = None
  /\ (forall h, readingInterval w = Some h ->
        intervals w' = filter (fun i => negb (Nat.eqb (handle i) h)) (intervals w)
        /\ forall i, In i (intervals w') -> handle i <> h)
  /\ (readingInterval w = None -> w' = w)
  /\ portTemperature w' = portTemperature w
  /\ ports w' = ports w
  /\ buffer w' = buffer w
  /\ nextHandle w' = nextHandle w
  /\ now w' = now w
  /\ trace w' = trace w.
Proof.
  cbv zeta. rewrite stop_eq. fields.
  split; [reflexivity | split; [|split]].
  - intros h Hh. rewrite Hh. split; [reflexivity|].
    intros i Hi. apply filter_In in Hi as [_ Hi].
    now apply negb_true_iff, Nat.eqb_neq in Hi.
  - intros Hn. rewrite Hn, <- Hn. apply world_eta.
  - repeat split.
Qed.

(** Stopping while polling, and stopping again. *)
Lemma stop_frame_witness :
  let w := run [Initialize "COM1" no_options; Opened 0; Elapse 600] initial in
  readingInterval w = Some 0
  /\ intervals (stopTemperatureReading w) = []
  /\ openPorts (stopTemperatureReading w) = [0]
  /\ stopTemperatureReading (stopTemperatureReading w) = stopTemperatureReading w.
Proof.
  cbv zeta.
  set (w := run [Initialize "COM1" no_options; Opened 0; Elapse 600] initial).
  split; [reflexivity | split; [|split]].
  - rewrite (proj1 (proj1 (proj2 (stop_frame w)) 0 eq_refl)). reflexivity.
  - reflexivity.
  - apply (proj1 (proj2 (proj2 (stop_frame (stopTemperatureReading w))))).
    reflexivity.
Defined.

End Polling.

Section Initialize.

(** X16.  Every call of [initialize] clears the handle of the poll timer
    and removes the timer, closes the current port if it is open, and only
    then makes the new port, which becomes the current one.  When
    [initialize] is never called while the port of the previous call is
    still being opened, there is at any moment at most one active timer and
    at most one open port. *)
Theorem reinitialize_supersedes :
  (forall portName options w,
      let w' := initializeSerialPort portName options w in
      let p' := List.length (ports w) in
      readingInterval w' = None
      /\ (forall h i, readingInterval w = Some h -> In i (intervals w') ->
                      handle i <> h)
      /\ portTemperature w' = Some p'
      /\ statusOf p' w' = Some Opening
      /\ (forall p, openPort w = Some p ->
            statusOf p w' = Some Closed
            /\ trace w' = (trace w ++ [(now w, Close p); (now w, Construct p')])%list)
      /\ (openPort w = None ->
            trace w' = (trace w ++ [(now w, Construct p')])%list))
  /\ (forall acts,
         paced initial acts = true ->
         List.length (intervals (run acts initial)) <= 1
         /\ List.length (openPorts (run acts initial)) <= 1).
Proof.
  split.
  - intros portName options w. cbv zeta. rewrite initialize_eq. fields.
    assert (HP : List.length
                   match openPort w with
                   | Some q => update_nth q (set_status Closed) (ports w)
                   | None => ports w
                   end = List.length (ports w)).
    { destruct (openPort w); [apply update_nth_length | reflexivity]. }
    split; [reflexivity | split; [|split; [reflexivity | split; [|split]]]].
    + intros h i Hh Hi. rewrite stop_eq in Hi. fields_in Hi.
      rewrite Hh in Hi. apply filter_In in Hi as [_ Hi].
      now apply negb_true_iff, Nat.eqb_neq in Hi.
    + unfold statusOf, lookup_port. fields.
      now rewrite nth_error_snoc, HP, Nat.ltb_irrefl, Nat.eqb_refl.
    + intros p Hp. rewrite Hp in *. split; [|reflexivity].
      apply openPort_Some in Hp as [_ Hs].
      pose proof (statusOf_Some_lt _ _ _ Hs) as Hlt.
      unfold statusOf, lookup_port in *. fields.
      rewrite nth_error_snoc, HP.
      apply Nat.ltb_lt in Hlt. rewrite Hlt.
      rewrite nth_error_update_nth, Nat.eqb_refl.
      now destruct (nth_error (ports w) p).
    + intros ->. reflexivity.
  - intros acts Hp. apply tidy_single, tidy_run; [apply tidy_initial | exact Hp].
Qed.

(** A second call once the first port has opened. *)
Lemma reinitialize_supersedes_witness :
  let acts := [Initialize "COM1" no_options; Opened 0; Elapse 600;
               Initialize "COM2" no_options; Opened 1; Elapse 600] in
  paced initial acts = true
  /\ List.length (intervals (run acts initial)) <= 1
  /\ List.length (openPorts (run acts initial)) <= 1.
Proof.
  cbv zeta. split; [reflexivity|].
  apply (proj2 reinitialize_supersedes). reflexivity.
Defined.

(** C5, at the failing input: [initialize] called twice in succession.
    The second call finds the first port still being opened and does not
    close it.  Both ports then open, so two connections are open at once;
    and when the second port opens before the first, the ['open'] handler
    of the first arms a second timer over the handle of the running one:
    two timers write to the current port, and after
    [stopTemperatureReading] one of them still does. *)
Lemma double_initialize_failing_input :
  let twice := [Initialize "COM1" no_options; Initialize "COM2" no_options] in
  let w1 := run (twice ++ [Opened 0; Opened 1]) initial in
  let w2 := run (twice ++ [Opened 1; Opened 0]) initial in
  ~ (List.length (intervals w1) <= 1 /\ List.length (openPorts w1) <= 1)
  /\ openPorts w1 = [0; 1]
  /\ List.length (intervals w2) = 2
  /\ openPorts w2 = [0; 1]
  /\ writes (elapse 524 w2) = [(524%Z, 1, POLL_COMMAND); (524%Z, 1, POLL_COMMAND)]
  /\ List.length (intervals (stopTemperatureReading w2)) = 1
  /\ writes (elapse 524 (stopTemperatureReading w2)) = [(524%Z, 1, POLL_COMMAND)].
Proof.
  cbv zeta. split; [|repeat split; vm_compute; reflexivity].
  intros [_ H]. vm_compute in H. lia.
Qed.

(** A timer leaked in this way outlives later calls of [initialize]: a
    third call, whose port opens 100 ms later, is first polled 424 ms after
    that opening, the two timers write 100 ms apart, and
    [stopTemperatureReading] leaves the leaked one writing. *)
Example leaked_timer_disturbs_cadence :
  let w := run [Initialize "COM1" no_options; Initialize "COM2" no_options;
                Opened 1; Opened 0; Initialize "COM3" no_options;
                Elapse 100; Opened 2] initial in
  timersTracked (run [Initialize "COM1" no_options; Initialize "COM2" no_options;
                      Opened 1; Opened 0] initial) = false
  /\ now w = 100%Z
  /\ writes (elapse 600 w) = [(524%Z, 2, POLL_COMMAND); (624%Z, 2, POLL_COMMAND)]
  /\ writes (elapse 1000 (stopTemperatureReading (elapse 600 w)))
     = [(524%Z, 2, POLL_COMMAND); (624%Z, 2, POLL_COMMAND);
        (1048%Z, 2, POLL_COMMAND); (1572%Z, 2, POLL_COMMAND)].
Proof. cbv zeta. repeat split; vm_compute; reflexivity. Qed.

(** C9.  [initialize] leaves the line buffer as it is, and so does the
    opening of the new port; the text left over from before is therefore
    put in front of the first line the new connection delivers: when the
    bytes begin with [first] and a terminator, the first line processed is
    the old buffer followed by [first]. *)
Theorem reinitialize_keeps_buffer (portName : string) (options : HH42Options)
    (w : World) :
  let w1 := initializeSerialPort portName options w in
  let w2 := port_opened (List.length (ports w)) w1 in
  buffer w1 = buffer w
  /\ buffer w2 = buffer w
  /\ forall data first more,
       toString_ascii data = first ++ CRLF ++ more ->
       includes_CRLF (buffer w ++ first) = false ->
       readings (onData data w2) =
       (readings w2
        ++ lineReadings ((buffer w ++ first)%string :: completeLines more))%list
       /\ buffer (onData data w2) = last (split_CRLF more) "".
Proof.
  cbv zeta.
  set (w1 := initializeSerialPort portName options w).
  set (w2 := port_opened (List.length (ports w)) w1).
  assert (H1 : buffer w1 = buffer w) by apply initialize_buffer.
  assert (H2 : buffer w2 = buffer w)
    by (unfold w2; now rewrite port_opened_buffer).
  split; [exact H1 | split; [exact H2|]].
  intros data first more Hd Hn.
  apply includes_CRLF_noCRLF in Hn.
  rewrite onData_emit, readings_emit. fields.
  rewrite H2, Hd, <- append_assoc.
  unfold completeLines. rewrite (split_CRLF_terminated _ more Hn).
  pose proof (split_CRLF_nonempty more) as Hne.
  destruct (split_CRLF more) as [|s l] eqn:E; [congruence|].
  split; reflexivity.
Qed.

(** [12.3] is left over from the first connection; the second delivers
    [4C\r\n]. *)
Lemma reinitialize_keeps_buffer_witness :
  let w := run [Initialize "COM1" no_options; Opened 0;
                Data 0 (bytes_of "12.3")] initial in
  let w2 := port_opened 1 (initializeSerialPort "COM2" no_options w) in
  toString_ascii (bytes_of ("4C" ++ CRLF)) = "4C" ++ CRLF ++ ""
  /\ includes_CRLF (buffer w ++ "4C") = false
  /\ readings (onData (bytes_of ("4C" ++ CRLF)) w2)
     = [ {| temperatureValue := Num 12.34; unit := "C" |} ].
Proof.
  cbv zeta. split; [reflexivity | split; [reflexivity|]].
  set (w := run [Initialize "COM1" no_options; Opened 0;
                 Data 0 (bytes_of "12.3")] initial).
  exact (proj1 (proj2 (proj2 (reinitialize_keeps_buffer "COM2" no_options w))
                  (bytes_of ("4C" ++ CRLF)) "4C" "" eq_refl eq_refl)).
Defined.

(** C10.  The port [initialize] makes carries the resolved options, and an
    option passed as a falsy value (0, or the empty string) resolves to its
    default like an option left out: 9600 baud, 8 data bits, 1 stop bit, no
    parity. *)
Theorem falsy_options_default (portName : string) (options : HH42Options)
    (w : World) :
  let w' := initializeSerialPort portName options w in
  exists port,
    portTemperature w' = Some (List.length (ports w))
    /\ lookup_port (List.length (ports w)) w' = Some port
    /\ path (settings port) = portName
    /\ (opt_baudRate options = Some 0%Z \/ opt_baudRate options = None ->
        baudRate (settings port) = 9600%Z)
    /\ (opt_dataBits options = Some 0%Z \/ opt_dataBits options = None ->
        dataBits (settings port) = 8%Z)
    /\ (opt_stopBits options = Some 0%Z \/ opt_stopBits options = None ->
        stopBits (settings port) = 1%Z)
    /\ (opt_parity options = Some "" \/ opt_parity options = None ->
        parity (settings port) = "none")
    /\ (forall n, opt_baudRate options = Some n -> n <> 0%Z ->
                  baudRate (settings port) = n).
Proof.
  cbv zeta. exists (fresh portName options). rewrite initialize_eq. fields.
  split; [reflexivity | split; [|split; [reflexivity|]]].
  - unfold lookup_port. fields. rewrite nth_error_snoc.
    assert (HP : List.length
                   match openPort w with
                   | Some q => update_nth q (set_status Closed) (ports w)
                   | None => ports w
                   end = List.length (ports w)).
    { destruct (openPort w); [apply update_nth_length | reflexivity]. }
    now rewrite HP, Nat.ltb_irrefl, Nat.eqb_refl.
  - cbn [fresh settings resolveOptions baudRate dataBits stopBits parity].
    repeat split.
    + intros [-> | ->]; reflexivity.
    + intros [-> | ->]; reflexivity.
    + intros [-> | ->]; reflexivity.
    + intros [-> | ->]; reflexivity.
    + intros n -> Hn. cbn. apply Z.eqb_neq in Hn. now rewrite Hn.
Qed.

(** Every option passed as a falsy value. *)
Lemma falsy_options_default_witness :
  let falsy := {| opt_baudRate := Some 0%Z; opt_dataBits := Some 0%Z;
                  opt_stopBits := Some 0%Z; opt_parity := Some "" |} in
  option_map settings (lookup_port 0 (initializeSerialPort "COM1" falsy initial))
  = Some {| path := "COM1"; baudRate := 9600; dataBits := 8; stopBits := 1;
            parity := "none" |}.
Proof.
  cbv zeta.
  destruct (falsy_options_default "COM1"
              {| opt_baudRate := Some 0%Z; opt_dataBits := Some 0%Z;
                 opt_stopBits := Some 0%Z; opt_parity := Some "" |} initial)
    as (port & _ & Hl & Hpath & Hb & Hd & Hs & Hp & _).
  cbn [ports initial List.length] in Hl. rewrite Hl. cbn [option_map].
  specialize (Hb (or_introl eq_refl)). specialize (Hd (or_introl eq_refl)).
  specialize (Hs (or_introl eq_refl)). specialize (Hp (or_introl eq_refl)).
  destruct port as [[pa b da st pr] s r]. cbn in *. now subst.
Defined.

End Initialize.

Section Discovery.

(** C8.  [getAvailablePorts] always fulfils: with the paths of the ports
    the serial subsystem lists, or with the empty list when the listing
    fails; it never rejects. *)
Theorem getAvailablePorts_never_rejects (listed : Settled (list PortInfo)) :
  exists paths,
    fst (getAvailablePorts listed) = Fulfilled paths
    /\ (forall ports, listed = Fulfilled ports -> paths = map info_path ports)
    /\ (forall reason, listed = Rejected reason -> paths = []).
Proof.
  destruct listed as [ports | reason]; cbn.
  - exists (map info_path ports). repeat split; congruence.
  - exists []. repeat split; congruence.
Qed.

(** A listing of two ports, and a listing that fails. *)
Lemma getAvailablePorts_never_rejects_witness :
  let com1 := {| info_path := "COM1"; info_manufacturer := None;
                 info_serialNumber := None |} in
  let com2 := {| info_path := "/dev/ttyUSB0"; info_manufacturer := Some "FTDI";
                 info_serialNumber := None |} in
  fst (getAvailablePorts (Fulfilled [com1; com2]))
  = Fulfilled ["COM1"; "/dev/ttyUSB0"]
  /\ fst (getAvailablePorts (Rejected "EACCES")) = Fulfilled [].
Proof.
  cbv zeta. split.
  - destruct (getAvailablePorts_never_rejects
                (Fulfilled [ {| info_path := "COM1"; info_manufacturer := None;
                                info_serialNumber := None |};
                             {| info_path := "/dev/ttyUSB0";
                                info_manufacturer := Some "FTDI";
                                info_serialNumber := None |} ]))
      as (paths & H & Hok & _).
    rewrite H. f_equal. exact (Hok _ eq_refl).
  - destruct (getAvailablePorts_never_rejects (Rejected "EACCES"))
      as (paths & H & _ & Hfail).
    rewrite H. f_equal. exact (Hfail _ eq_refl).
Defined.

End Discovery.

(* ================================================================== *)
(** ** Further properties: the poll goes on whatever else happens       *)
(* ================================================================== *)

Section Clockwork.

Lemma pollTick_same (w1 w2 : World) :
  sameClockwork w1 w2 ->
  sameClockwork (pollTick w1) (pollTick w2)
  /\ exists added, writesAdded w1 (pollTick w1) added
                   /\ writesAdded w2 (pollTick w2) added.
Proof.
  intros (Hp & Hi & Hn). unfold pollTick, writesAdded, writes. rewrite Hp.
  destruct (portTemperature w2) as [p|] eqn:E.
  - split; [unfold sameClockwork; fields; repeat split; congruence|].
    exists [(now w2, p, POLL_COMMAND)].
    fields. rewrite Hn, !writes_of_app. now split.
  - split; [unfold sameClockwork; repeat split; congruence|].
    exists []. now rewrite !app_nil_r.
Qed.

Lemma fire_same (w1 w2 : World) (i : Interval) :
  sameClockwork w1 w2 ->
  sameClockwork (fire w1 i) (fire w2 i)
  /\ exists added, writesAdded w1 (fire w1 i) added
                   /\ writesAdded w2 (fire w2 i) added.
Proof.
  intros H. pose proof H as (Hp & Hi & Hn). unfold fire. rewrite Hn, Hi.
  destruct (Z.eqb (due i) (now w2)).
  - apply (pollTick_same (set_intervals _ w1) (set_intervals _ w2)).
    now repeat split.
  - split; [exact H|]. exists []. unfold writesAdded.
    now rewrite !app_nil_r.
Qed.

Lemma fires_same (l : list Interval) (w1 w2 : World) :
  sameClockwork w1 w2 ->
  sameClockwork (fold_left fire l w1) (fold_left fire l w2)
  /\ exists added, writesAdded w1 (fold_left fire l w1) added
                   /\ writesAdded w2 (fold_left fire l w2) added.
Proof.
  revert w1 w2. induction l as [|i l IH]; intros w1 w2 H.
  - split; [exact H|]. exists []. unfold writesAdded. now rewrite !app_nil_r.
  - cbn [fold_left].
    destruct (fire_same w1 w2 i H) as (H' & a & Ha1 & Ha2).
    destruct (IH _ _ H') as (H'' & b & Hb1 & Hb2).
    split; [exact H''|]. exists (a ++ b)%list. unfold writesAdded in *.
    now rewrite Hb1, Hb2, Ha1, Ha2, !app_assoc.
Qed.

Lemma elapse_same (n : nat) (w1 w2 : World) :
  sameClockwork w1 w2 ->
  sameClockwork (elapse n w1) (elapse n w2)
  /\ exists added, writesAdded w1 (elapse n w1) added
                   /\ writesAdded w2 (elapse n w2) added.
Proof.
  revert w1 w2. induction n as [|n IH]; intros w1 w2 H.
  - split; [exact H|]. exists []. unfold writesAdded. now rewrite !app_nil_r.
  - cbn [elapse]. pose proof H as (Hp & Hi & Hn).
    assert (H1 : sameClockwork (set_now (now w1 + 1) w1) (set_now (now w2 + 1) w2)).
    { repeat split; fields; congruence. }
    destruct (fires_same (intervals w1) _ _ H1) as (H' & a & Ha1 & Ha2).
    assert (E1 : elapse1 w1 = fold_left fire (intervals w1) (set_now (now w1 + 1) w1))
      by reflexivity.
    assert (E2 : elapse1 w2 = fold_left fire (intervals w1) (set_now (now w2 + 1) w2))
      by (unfold elapse1; fields; now rewrite Hi).
    rewrite E1, E2.
    destruct (IH _ _ H') as (H'' & b & Hb1 & Hb2).
    split; [exact H''|]. exists (a ++ b)%list. unfold writesAdded in *.
    rewrite Hb1, Hb2, Ha1, Ha2, !app_assoc. now split.
Qed.

(** Worlds that agree on the clockwork and on the writes so far agree on
    the writes ever after. *)
Lemma elapse_writes (n : nat) (w1 w2 : World) :
  sameClockwork w1 w2 -> writes w1 = writes w2 ->
  writes (elapse n w1) = writes (elapse n w2).
Proof.
  intros H Hw. destruct (elapse_same n w1 w2 H) as (_ & a & H1 & H2).
  unfold writesAdded in *. now rewrite H1, H2, Hw.
Qed.

Lemma writes_emitReadings (rs : list Reading) (w : World) :
  writes (emitReadings rs w) = writes w.
Proof.
  unfold writes, emitReadings. fields. rewrite writes_of_app.
  induction rs as [|r rs IH]; [apply app_nil_r | exact IH].
Qed.

End Clockwork.

Section PollGoesOn.

(** X1.  The ['error'] handler reports and does nothing else: it logs and
    emits [serialErrorTemperature] with the message, leaves the connection,
    the ports, the buffer and the timer as they are, and the poll commands
    are written afterwards exactly as they would have been. *)
Theorem error_keeps_polling (message : string) (w : World) (n : nat) :
  let w' := onError message w in
  trace w' = (trace w
              ++ [(now w, ConsoleError ("Serial port error: " ++ message)%string);
                  (now w, Emit (serialErrorTemperature message))])%list
  /\ portTemperature w' = portTemperature w
  /\ ports w' = ports w
  /\ buffer w' = buffer w
  /\ readingInterval w' = readingInterval w
  /\ intervals w' = intervals w
  /\ writes (elapse n w') = writes (elapse n w).
Proof.
  cbv zeta. unfold onError. fields.
  split; [now rewrite <- app_assoc | repeat split].
  apply elapse_writes; [now repeat split|].
  unfold writes. fields. now rewrite !writes_of_app, !app_nil_r.
Qed.

(** X2.  The tick of the timer does not look at whether the port is open:
    when the transport closes a port, the handle and the timer stay, and the
    poll commands are written afterwards exactly as they would have been. *)
Theorem lost_port_still_polled (p : nat) (w : World) (n : nat) :
  let w' := port_lost p w in
  readingInterval w' = readingInterval w
  /\ intervals w' = intervals w
  /\ portTemperature w' = portTemperature w
  /\ writes (elapse n w') = writes (elapse n w).
Proof.
  cbv zeta. unfold port_lost. fields. repeat split.
  apply elapse_writes; now repeat split.
Qed.

Lemma lineReadings_length (lines : list string) :
  List.length (lineReadings lines) <= List.length lines.
Proof.
  induction lines as [|line lines IH]; [reflexivity|].
  unfold lineReadings in *. cbn [flat_map]. rewrite length_app.
  destruct (processLine line); cbn; lia.
Qed.

(** X3.  The ['data'] handler only reads: it changes the buffer and emits
    readings, at most one for each terminated line; it never writes to a
    port, never touches the connection or the timer, and the poll commands
    are written afterwards exactly as they would have been. *)
Theorem data_only_reads (data : list byte) (w : World) (n : nat) :
  let w' := onData data w in
  portTemperature w' = portTemperature w
  /\ ports w' = ports w
  /\ readingInterval w' = readingInterval w
  /\ intervals w' = intervals w
  /\ now w' = now w
  /\ (exists rs,
        trace w' = (trace w
                    ++ map (fun r => (now w, Emit (serialDataTemperature r))) rs)%list
        /\ List.length rs
           <= List.length (completeLines (buffer w ++ toString_ascii data)))
  /\ writes w' = writes w
  /\ writes (elapse n w') = writes (elapse n w).
Proof.
  cbv zeta. rewrite onData_emit. fields.
  assert (Hw : writes (emitReadings
                 (lineReadings (completeLines (buffer w ++ toString_ascii data)))
                 (set_buffer
                    (last (split_CRLF (buffer w ++ toString_ascii data)) "") w))
               = writes w) by now rewrite writes_emitReadings.
  repeat split.
  - eexists. split; [reflexivity | apply lineReadings_length].
  - exact Hw.
  - apply elapse_writes; [now repeat split | exact Hw].
Qed.

(** X4.  Bytes that bring no line terminator are only put aside: as long
    as the buffer with the decoded bytes holds no terminator, the handler
    emits nothing and the buffer becomes the old buffer followed by those
    bytes. *)
Theorem unterminated_bytes_accumulate (data : list byte) (w : World) :
  includes_CRLF (buffer w ++ toString_ascii data) = false ->
  onData data w = set_buffer (buffer w ++ toString_ascii data) w.
Proof.
  intros H. apply includes_CRLF_noCRLF in H.
  rewrite onData_emit. unfold completeLines.
  rewrite (split_CRLF_flat _ H). cbn [removelast last].
  apply emitReadings_nil.
Qed.

Lemma unterminated_bytes_accumulate_witness :
  let w := onData (bytes_of "-1") initial in
  includes_CRLF (buffer w ++ toString_ascii (bytes_of (".5" ++ String CR ""))) = false
  /\ buffer (onData (bytes_of (".5" ++ String CR "")) w) = "-1.5" ++ String CR ""
  /\ readings (onData (bytes_of (".5" ++ String CR "")) w) = [].
Proof.
  cbv zeta. split; [reflexivity|].
  rewrite (unterminated_bytes_accumulate (bytes_of (".5" ++ String CR ""))
             (onData (bytes_of "-1") initial) eq_refl).
  split; reflexivity.
Defined.

End PollGoesOn.

(* ================================================================== *)
(** ** Further properties: what a reading looks like                    *)
(* ================================================================== *)

Section Trim.

Lemma trimStart_starts (s : string) : startsWith isWhiteSpace (trimStart s) = false.
Proof.
  induction s as [|c s IH]; [reflexivity|]. cbn [trimStart].
  destruct (isWhiteSpace c) eqn:E; [exact IH | cbn; exact E].
Qed.

Lemma trimEnd_starts (s : string) :
  startsWith isWhiteSpace s = false -> startsWith isWhiteSpace (trimEnd s) = false.
Proof.
  destruct s as [|c s]; [reflexivity|]. cbn [startsWith trimEnd].
  intros E. rewrite E. cbn [andb startsWith]. exact E.
Qed.

Lemma trimEnd_ends (s x : string) (c : ascii) :
  trimEnd s = x ++ String c "" -> isWhiteSpace c = false.
Proof.
  revert x. induction s as [|a s IH]; intros x; cbn [trimEnd].
  - destruct x; discriminate.
  - destruct (isWhiteSpace a && isEmpty (trimEnd s)) eqn:E.
    + destruct x; discriminate.
    + destruct x as [|b x]; cbn [append].
      * intros [= -> Hs]. rewrite Hs in E. cbn in E.
        now rewrite andb_true_r in E.
      * intros [= _ Hs]. exact (IH _ Hs).
Qed.

(** The text [trim] returns neither begins nor ends with white space. *)
Lemma trim_bare (s : string) :
  startsWith isWhiteSpace (trim s) = false
  /\ forall x c, trim s = x ++ String c "" -> isWhiteSpace c = false.
Proof.
  split.
  - apply trimEnd_starts, trimStart_starts.
  - intros x c. apply trimEnd_ends.
Qed.

Lemma get_last (x : string) (c : ascii) :
  String.get (String.length (x ++ String c "") - 1) (x ++ String c "") = Some c.
Proof.
  induction x as [|a x IH]; [reflexivity|].
  cbn [append String.length]. rewrite Nat.sub_succ, Nat.sub_0_r.
  destruct (x ++ String c "") as [|b y] eqn:E; [destruct x; discriminate|].
  cbn [String.length] in *. rewrite Nat.sub_succ, Nat.sub_0_r in IH.
  exact IH.
Qed.

Lemma unitOf_last (x : string) (c : ascii) :
  unitOf (x ++ String c "") = if isUnitLetter c then String c "" else "".
Proof. unfold unitOf. now rewrite get_last. Qed.

Lemma digits_last (ds : string) :
  digits ds -> exists x c, ds = x ++ String c "" /\ isDigit c = true.
Proof.
  intros [Hne Hall]. induction ds as [|a ds IH]; [congruence|].
  cbn [all] in Hall. apply andb_true_iff in Hall as [Ha Hds].
  destruct ds as [|b ds].
  - exists "", a. now split.
  - destruct (IH ltac:(discriminate) Hds) as (x & c & E & Hc).
    exists (String a x), c. cbn [append]. now rewrite <- E.
Qed.

Lemma digit_not_unit (c : ascii) : isDigit c = true -> isUnitLetter c = false.
Proof. by_bits c. Qed.

End Trim.

Section ReadingShape.

(** X5.  What an emitted reading looks like.  The trimmed line is an
    optional minus sign, digits, a point, digits, then nothing, or a unit
    letter [C] or [F] with at most one white-space character before it; the
    white-space alternative at the start of the pattern and white space at
    the end never occur, the line being trimmed.  The value is the Number
    value of the signed numeric part, never [NaN]; the unit is the unit
    letter, or empty. *)
Theorem reading_shape (line : string) (r : Reading) :
  processLine line = Some r ->
  exists (neg : bool) (ip fp sp u : string),
    trim line = (if neg then "-" else "") ++ ip ++ "." ++ fp ++ sp ++ u
    /\ digits ip /\ digits fp
    /\ optional isWhiteSpace sp /\ optional isUnitLetter u
    /\ (u = "" -> sp = "")
    /\ temperatureValue r = decimal neg ip fp 0
    /\ unit r = u
    /\ temperatureValue r <> NaN.
Proof.
  unfold processLine. rewrite unit_of_last.
  destruct (String.eqb (trim line) ">" || String.eqb (trim line) "T");
    [discriminate|].
  destruct (test READING_PATTERN (trim line)) eqn:Hm; [|discriminate].
  intros [= <-].
  apply reading_pattern_framed in Hm as (lead & ip & fp & sp & u & Hf).
  rewrite (parseFloat_framed _ _ _ _ _ _ Hf).
  destruct (trim_bare line) as [Hstart Hend].
  destruct Hf as (Ht & Hl & Hip & Hfp & Hsp & Hu).
  cbn [temperatureValue unit].
  (* the lead is empty or a minus *)
  assert (Hlead : lead = "" \/ lead = "-").
  { destruct Hl as [-> | (c & Hc & ->)]; [now left|]. right.
    rewrite Ht in Hstart. cbn [append startsWith] in Hstart.
    cbn beta in Hc. rewrite Hstart, orb_false_r in Hc.
    apply Ascii.eqb_eq in Hc. now subst c. }
  (* no white space at the very end *)
  assert (Hspu : u = "" -> sp = "").
  { intros ->. destruct Hsp as [-> | (c & Hc & ->)]; [reflexivity|].
    rewrite append_nil_r in Ht.
    rewrite <- !append_assoc in Ht. apply Hend in Ht. congruence. }
  (* the unit is the unit letter *)
  assert (Hunit : unitOf (trim line) = u).
  { rewrite Ht. destruct Hu as [-> | (c & Hc & ->)].
    - rewrite (Hspu eq_refl), !append_nil_r.
      destruct (digits_last fp Hfp) as (x & c & -> & Hc).
      rewrite <- !append_assoc, unitOf_last. now rewrite (digit_not_unit c Hc).
    - rewrite <- !append_assoc, unitOf_last. now rewrite Hc. }
  exists (String.eqb lead "-"), ip, fp, sp, u.
  repeat split; try assumption; try apply Hip; try apply Hfp.
  - rewrite Ht. now destruct Hlead as [-> | ->].
  - unfold decimal, toNumber.
    destruct (Z.eqb (digitsValue (ip ++ fp)) 0 && String.eqb lead "-");
      [discriminate|].
    destruct (0 <=? 0)%Z; destruct (overflows _); discriminate.
Qed.

Lemma reading_shape_witness :
  let r := {| temperatureValue := Num (-12.5); unit := "F" |} in
  processLine " -12.5 F  " = Some r
  /\ exists (neg : bool) (ip fp sp u : string),
       trim " -12.5 F  " = (if neg then "-" else "") ++ ip ++ "." ++ fp ++ sp ++ u
       /\ digits ip /\ digits fp
       /\ optional isWhiteSpace sp /\ optional isUnitLetter u
       /\ (u = "" -> sp = "")
       /\ temperatureValue r = decimal neg ip fp 0
       /\ unit r = u
       /\ temperatureValue r <> NaN.
Proof.
  cbv zeta. split; [reflexivity|].
  exact (reading_shape " -12.5 F  " _ eq_refl).
Defined.

(** A line within the pattern can still lie beyond the range of a Number:
    a one followed by 309 zeros reads as an infinity. *)
Example line_beyond_range :
  processLine (String "1" (Nat.iter 309 (String "0") ".0"))
  = Some {| temperatureValue := Infinity false; unit := "" |}.
Proof. vm_compute. reflexivity. Qed.

Example line_largest_finite :
  exists q,
    processLine (String "1" (Nat.iter 308 (String "0") ".0"))
    = Some {| temperatureValue := Num q; unit := "" |}.
Proof. eexists. vm_compute. reflexivity. Qed.

End ReadingShape.

(* ================================================================== *)
(** ** Further properties: opening, and ports that are not current      *)
(* ================================================================== *)

Section OpenHandler.

(** X6.  When the current port finishes opening, the handler logs, sets
    RTS on that port, arms the timer one period ahead under a new handle
    which it stores, and emits [portOpenedTemperature] with the path of the
    port, in this order; the port is then open with RTS set, and nothing has
    been written to it yet. *)
Theorem open_effects (p : nat) (port : SerialPort) (w : World) :
  portTemperature w = Some p ->
  lookup_port p w = Some port ->
  status port = Opening ->
  let w' := port_opened p w in
  trace w' = (trace w
              ++ [(now w, ConsoleLog "Port opened successfully");
                  (now w, SetRTS p);
                  (now w, Emit (portOpenedTemperature (path (settings port))))])%list
  /\ lookup_port p w'
     = Some {| settings := settings port; status := Open; rts := true |}
  /\ readingInterval w' = Some (nextHandle w)
  /\ intervals w'
     = (intervals w
        ++ [{| handle := nextHandle w; due := now w + 524; period := 524 |}])%list
  /\ writes w' = writes w.
Proof.
  intros Hp Hl Hs. cbv zeta. unfold port_opened. rewrite Hl, Hs.
  set (w1 := set_ports (update_nth p (set_status Open) (ports w)) w).
  assert (Ho : openPort w1 = Some p).
  { apply openPort_Some. split; [exact Hp|]. unfold w1.
    rewrite statusOf_set_status, Nat.eqb_refl. unfold statusOf.
    now rewrite Hl. }
  rewrite onOpen_eq, Ho. unfold w1. fields.
  split; [reflexivity | split; [|split; [reflexivity | split; [reflexivity|]]]].
  - unfold lookup_port in *. fields.
    rewrite !nth_error_update_nth, Nat.eqb_refl, Hl. reflexivity.
  - unfold writes. fields. rewrite writes_of_app. apply app_nil_r.
Qed.

Lemma open_effects_witness :
  let w := initializeSerialPort "COM1" no_options initial in
  portTemperature w = Some 0
  /\ lookup_port 0 w = Some (fresh "COM1" no_options)
  /\ trace (port_opened 0 w)
     = [(0%Z, Construct 0);
        (0%Z, ConsoleLog "Port opened successfully");
        (0%Z, SetRTS 0);
        (0%Z, Emit (portOpenedTemperature "COM1"))].
Proof.
  cbv zeta. split; [reflexivity | split; [reflexivity|]].
  exact (proj1 (open_effects 0 (fresh "COM1" no_options)
                  (initializeSerialPort "COM1" no_options initial)
                  eq_refl eq_refl eq_refl)).
Defined.

(** X7.  The ['open'] handler never cancels a timer: when it runs while the
    current port is open and a timer is already active, that timer stays,
    its handle is overwritten by the new one, and a later
    [stopTemperatureReading] removes the new timer only. *)
Theorem open_handler_never_cancels (portName : string) (w : World) (p : nat)
    (i : Interval) :
  openPort w = Some p ->
  In i (intervals w) ->
  handle i <> nextHandle w ->
  let w' := onOpen portName w in
  readingInterval w' = Some (nextHandle w)
  /\ In i (intervals w')
  /\ In i (intervals (stopTemperatureReading w'))
  /\ List.length (intervals w') = S (List.length (intervals w)).
Proof.
  intros Ho Hi Hh. cbv zeta. rewrite onOpen_eq, Ho, stop_eq. fields.
  split; [reflexivity | split; [|split]].
  - apply in_or_app. now left.
  - apply filter_In. split; [apply in_or_app; now left|].
    now apply negb_true_iff, Nat.eqb_neq.
  - rewrite length_app. cbn. lia.
Qed.

Lemma open_handler_never_cancels_witness :
  let w := run [Initialize "COM1" no_options; Opened 0] initial in
  let i := {| handle := 0; due := 524; period := 524 |} in
  openPort w = Some 0 /\ In i (intervals w) /\ handle i <> nextHandle w
  /\ In i (intervals (stopTemperatureReading (onOpen "COM1" w))).
Proof.
  cbv zeta. split; [reflexivity | split; [now left | split; [discriminate|]]].
  apply (open_handler_never_cancels "COM1"
           (run [Initialize "COM1" no_options; Opened 0] initial) 0
           {| handle := 0; due := 524; period := 524 |});
    [reflexivity | now left | discriminate].
Defined.

(** X8.  A port that finishes opening when it is no longer the current
    one, while the current port is not open, is announced under its own
    path and becomes open, but RTS is not set on it, no timer is armed and
    the fields of the instance do not change. *)
Theorem stale_port_opens_unused (q : nat) (port : SerialPort) (w : World) :
  lookup_port q w = Some port ->
  status port = Opening ->
  portTemperature w <> Some q ->
  openPort w = None ->
  let w' := port_opened q w in
  trace w' = (trace w
              ++ [(now w, ConsoleLog "Port opened successfully");
                  (now w, Emit (portOpenedTemperature (path (settings port))))])%list
  /\ lookup_port q w'
     = Some {| settings := settings port; status := Open; rts := rts port |}
  /\ portTemperature w' = portTemperature w
  /\ readingInterval w' = readingInterval w
  /\ intervals w' = intervals w.
Proof.
  intros Hl Hs Hq Ho. cbv zeta. unfold port_opened. rewrite Hl, Hs.
  set (w1 := set_ports (update_nth q (set_status Open) (ports w)) w).
  assert (Ho1 : openPort w1 = None).
  { rewrite openPort_statusOf in Ho |- *. unfold w1. fields.
    destruct (portTemperature w) as [p|]; [|reflexivity].
    rewrite statusOf_set_status.
    destruct (Nat.eqb_spec p q) as [->|_]; [congruence | exact Ho]. }
  rewrite onOpen_eq, Ho1. unfold w1. fields.
  split; [reflexivity | split; [|repeat split]].
  unfold lookup_port in *. fields.
  now rewrite nth_error_update_nth, Nat.eqb_refl, Hl.
Qed.

Lemma stale_port_opens_unused_witness :
  let w := run [Initialize "COM1" no_options; Initialize "COM2" no_options] initial in
  lookup_port 0 w = Some (fresh "COM1" no_options)
  /\ portTemperature w <> Some 0
  /\ openPort w = None
  /\ intervals (port_opened 0 w) = []
  /\ openPorts (port_opened 0 w) = [0].
Proof.
  cbv zeta.
  split; [reflexivity | split; [discriminate | split; [reflexivity|]]].
  destruct (stale_port_opens_unused 0 (fresh "COM1" no_options)
              (run [Initialize "COM1" no_options; Initialize "COM2" no_options]
                 initial)
              eq_refl eq_refl ltac:(discriminate) eq_refl)
    as (_ & _ & _ & _ & Hi).
  split; [exact Hi | reflexivity].
Defined.

(** X9.  [initialize] touches no port but the open current one: every
    other port object, a port still being opened included, is left exactly
    as it was, and it is not closed. *)
Theorem initialize_spares_other_ports (portName : string)
    (options : HH42Options) (w : World) (q : nat) (port : SerialPort) :
  lookup_port q w = Some port ->
  openPort w <> Some q ->
  let w' := initializeSerialPort portName options w in
  lookup_port q w' = Some port
  /\ exists added,
       trace w' = (trace w ++ added)%list
       /\ forall time, ~ In (time, Close q) added.
Proof.
  intros Hl Ho. cbv zeta. rewrite initialize_eq.
  assert (Hlt : q < List.length (ports w)).
  { apply nth_error_Some. unfold lookup_port in Hl. congruence. }
  split.
  - unfold lookup_port in *. fields. rewrite nth_error_snoc.
    destruct (openPort w) as [p|].
    + rewrite update_nth_length. apply Nat.ltb_lt in Hlt. rewrite Hlt.
      rewrite nth_error_update_nth.
      destruct (Nat.eqb_spec q p) as [->|_]; [congruence | exact Hl].
    + apply Nat.ltb_lt in Hlt. now rewrite Hlt.
  - fields. eexists. split; [reflexivity|].
    intros time Hin. apply in_app_or in Hin as [Hin | Hin].
    + destruct (openPort w) as [p|]; [|destruct Hin].
      destruct Hin as [[= _ ->] | []]. now apply Ho.
    + destruct Hin as [[=] | []].
Qed.

Lemma initialize_spares_other_ports_witness :
  let w := initializeSerialPort "COM1" no_options initial in
  lookup_port 0 w = Some (fresh "COM1" no_options)
  /\ openPort w <> Some 0
  /\ lookup_port 0 (initializeSerialPort "COM2" no_options w)
     = Some (fresh "COM1" no_options).
Proof.
  cbv zeta. split; [reflexivity | split; [discriminate|]].
  exact (proj1 (initialize_spares_other_ports "COM2" no_options
                  (initializeSerialPort "COM1" no_options initial) 0
                  (fresh "COM1" no_options) eq_refl ltac:(discriminate))).
Defined.

End OpenHandler.

(* ================================================================== *)
(** ** Further properties: over whole runs                              *)
(* ================================================================== *)

Section Runs.

(** X10.  As long as [initialize] is not called while the previous port is
    still being opened, the stored handle tells the truth about the timers:
    with a handle stored there is exactly one timer, under that handle, of
    period 524 ms and due within the next 524 ms; with none stored there is
    no timer at all; and none is stored while the current port is still
    being opened. *)
Theorem handle_tracks_timer (acts : list Action) :
  paced initial acts = true ->
  let w := run acts initial in
  match readingInterval w with
  | Some h =>
      exists d, intervals w = [{| handle := h; due := d; period := 524 |}]
                /\ (now w < d <= now w + 524)%Z
  | None => intervals w = []
  end
  /\ (forall p, portTemperature w = Some p -> statusOf p w = Some Opening ->
                readingInterval w = None).
Proof.
  intros Hp. cbv zeta.
  destruct (tidy_run acts initial tidy_initial Hp) as (_ & HB & HC & _).
  split; [exact HB | exact HC].
Qed.

Lemma handle_tracks_timer_witness :
  let acts := [Initialize "COM1" no_options; Opened 0; Elapse 30] in
  paced initial acts = true
  /\ readingInterval (run acts initial) = Some 0
  /\ exists d, intervals (run acts initial)
               = [{| handle := 0; due := d; period := 524 |}]
               /\ (now (run acts initial) < d <= now (run acts initial) + 524)%Z.
Proof.
  cbv zeta.
  assert (Hp : paced initial
                 [Initialize "COM1" no_options; Opened 0; Elapse 30] = true)
    by (vm_compute; reflexivity).
  assert (Hr : readingInterval
                 (run [Initialize "COM1" no_options; Opened 0; Elapse 30] initial)
               = Some 0)
    by (vm_compute; reflexivity).
  split; [exact Hp | split; [exact Hr|]].
  destruct (handle_tracks_timer _ Hp) as [H _].
  rewrite Hr in H. exact H.
Defined.

(** X11.  Under the same condition [stopTemperatureReading] silences the
    instance whatever happened before: however long one waits after it,
    nothing more is written. *)
Theorem stop_silences (acts : list Action) (n : nat) :
  paced initial acts = true ->
  writes (elapse n (stopTemperatureReading (run acts initial)))
  = writes (run acts initial).
Proof.
  intros Hp.
  pose proof (tidy_stop _ (tidy_run acts initial tidy_initial Hp))
    as (_ & HB & _).
  rewrite stop_eq in HB. fields_in HB.
  rewrite elapse_idle by (rewrite stop_eq; exact HB).
  now rewrite stop_eq.
Qed.

Lemma stop_silences_witness :
  let acts := [Initialize "COM1" no_options; Opened 0; Elapse 600;
               Data 0 (bytes_of "23.5"); Elapse 600] in
  paced initial acts = true
  /\ writes (run acts initial)
     = [(524%Z, 0, POLL_COMMAND); (1048%Z, 0, POLL_COMMAND)]
  /\ writes (elapse 5000 (stopTemperatureReading (run acts initial)))
     = writes (run acts initial).
Proof.
  cbv zeta.
  assert (Hp : paced initial
                 [Initialize "COM1" no_options; Opened 0; Elapse 600;
                  Data 0 (bytes_of "23.5"); Elapse 600] = true)
    by (vm_compute; reflexivity).
  split; [exact Hp | split; [vm_compute; reflexivity|]].
  apply stop_silences. exact Hp.
Defined.

Lemma pollTick_writes (w : World) :
  exists added,
    writes (pollTick w) = (writes w ++ added)%list
    /\ Forall (fun x => snd x = POLL_COMMAND) added.
Proof.
  unfold pollTick, writes. destruct (portTemperature w) as [p|].
  - exists [(now w, p, POLL_COMMAND)]. fields. rewrite writes_of_app.
    split; [reflexivity | now repeat constructor].
  - exists []. now rewrite app_nil_r.
Qed.

Lemma fires_writes (l : list Interval) (w : World) :
  exists added,
    writes (fold_left fire l w) = (writes w ++ added)%list
    /\ Forall (fun x => snd x = POLL_COMMAND) added.
Proof.
  revert w. induction l as [|i l IH]; intros w.
  - exists []. now rewrite app_nil_r.
  - cbn [fold_left].
    assert (H : exists a, writes (fire w i) = (writes w ++ a)%list
                          /\ Forall (fun x => snd x = POLL_COMMAND) a).
    { unfold fire. destruct (Z.eqb (due i) (now w)).
      - apply (pollTick_writes (set_intervals _ w)).
      - exists []. now rewrite app_nil_r. }
    destruct H as (a & Ha & Fa). destruct (IH (fire w i)) as (b & Hb & Fb).
    exists (a ++ b)%list. rewrite Hb, Ha, app_assoc.
    split; [reflexivity | now apply Forall_app].
Qed.

Lemma elapse_writes_poll (n : nat) (w : World) :
  exists added,
    writes (elapse n w) = (writes w ++ added)%list
    /\ Forall (fun x => snd x = POLL_COMMAND) added.
Proof.
  revert w. induction n as [|n IH]; intros w.
  - exists []. now rewrite app_nil_r.
  - cbn [elapse]. unfold elapse1.
    destruct (fires_writes (intervals (set_now (now w + 1) w))
                (set_now (now w + 1) w)) as (a & Ha & Fa).
    destruct (IH (fold_left fire (intervals (set_now (now w + 1) w))
                    (set_now (now w + 1) w))) as (b & Hb & Fb).
    exists (a ++ b)%list. rewrite Hb, Ha, app_assoc.
    split; [reflexivity | now apply Forall_app].
Qed.

Lemma step_writes_poll (w : World) (a : Action) :
  exists added,
    writes (step w a) = (writes w ++ added)%list
    /\ Forall (fun x => snd x = POLL_COMMAND) added.
Proof.
  assert (same : forall w', writes w' = writes w ->
            exists added, writes w' = (writes w ++ added)%list
                          /\ Forall (fun x => snd x = POLL_COMMAND) added).
  { intros w' E. exists []. now rewrite app_nil_r. }
  destruct a as [portName options | | p | p data | p message | p | ms];
    cbn [step].
  - apply same. rewrite initialize_eq. unfold writes. fields.
    rewrite !writes_of_app. destruct (openPort w); cbn; now rewrite app_nil_r.
  - apply same. now rewrite stop_eq.
  - apply same. unfold port_opened.
    destruct (lookup_port p w) as [port|]; [|reflexivity].
    destruct (status port); try reflexivity.
    rewrite onOpen_eq. unfold writes.
    destruct (openPort _); fields; rewrite writes_of_app; apply app_nil_r.
  - apply same. rewrite onData_emit. now rewrite writes_emitReadings.
  - apply same. unfold port_failed, onError.
    destruct (lookup_port p w) as [port|]; [|reflexivity].
    unfold writes. destruct (status port); fields;
      rewrite !writes_of_app; cbn; now rewrite !app_nil_r.
  - apply same. reflexivity.
  - apply elapse_writes_poll.
Qed.

(** X12.  Whatever is done with the instance and whatever the transport
    and the clock do, nothing is ever written to a port but the poll
    command [T\r\n]. *)
Theorem only_poll_command_written (acts : list Action) :
  Forall (fun x => snd x = POLL_COMMAND) (writes (run acts initial)).
Proof.
  induction acts as [|a acts IH] using rev_ind; [constructor|].
  rewrite run_snoc.
  destruct (step_writes_poll (run acts initial) a) as (added & E & F).
  rewrite E. now apply Forall_app.
Qed.

End Runs.

Section Bookkeeping.

(** X13.  The buffering loses and invents nothing: after a pass of the
    ['data'] handler, the lines it processed, each followed by a line
    terminator, and then the new buffer, spell exactly the old buffer
    followed by the decoded bytes; and no processed line holds a
    terminator. *)
Theorem lines_and_tail_spell_input (data : list byte) (w : World) :
  let s := buffer w ++ toString_ascii data in
  String.concat CRLF (completeLines s ++ [buffer (onData data w)]) = s
  /\ Forall noCRLF (completeLines s).
Proof.
  cbv zeta. rewrite onData_buffer, <- split_CRLF_snoc. split.
  - apply split_CRLF_join.
  - pose proof (split_CRLF_segments (buffer w ++ toString_ascii data)) as H.
    rewrite split_CRLF_snoc in H. now apply Forall_app in H.
Qed.

(** X14.  Options that are given and truthy reach the port unchanged: with
    a non-zero baud rate, data bits and stop bits and a non-empty parity,
    the port [initialize] makes carries the path and exactly these four
    values. *)
Theorem truthy_options_kept (portName : string) (b d s : Z) (par : string)
    (w : World) :
  b <> 0%Z -> d <> 0%Z -> s <> 0%Z -> par <> "" ->
  let options := {| opt_baudRate := Some b; opt_dataBits := Some d;
                    opt_stopBits := Some s; opt_parity := Some par |} in
  let w' := initializeSerialPort portName options w in
  option_map settings (lookup_port (List.length (ports w)) w')
  = Some {| path := portName; baudRate := b; dataBits := d; stopBits := s;
            parity := par |}.
Proof.
  intros Hb Hd Hs Hp. cbv zeta. rewrite initialize_eq.
  unfold lookup_port. fields. rewrite nth_error_snoc.
  assert (HP : List.length
                 match openPort w with
                 | Some q => update_nth q (set_status Closed) (ports w)
                 | None => ports w
                 end = List.length (ports w)).
  { destruct (openPort w); [apply update_nth_length | reflexivity]. }
  rewrite HP, Nat.ltb_irrefl, Nat.eqb_refl.
  unfold fresh, resolveOptions, orZ, orString, truthyZ, truthyString.
  cbn [option_map settings opt_baudRate opt_dataBits opt_stopBits opt_parity].
  apply Z.eqb_neq in Hb, Hd, Hs. rewrite Hb, Hd, Hs.
  destruct par; [congruence | reflexivity].
Qed.

Lemma truthy_options_kept_witness :
  let options := {| opt_baudRate := Some 19200%Z; opt_dataBits := Some 7%Z;
                    opt_stopBits := Some 2%Z; opt_parity := Some "even" |} in
  option_map settings
    (lookup_port 0 (initializeSerialPort "COM3" options initial))
  = Some {| path := "COM3"; baudRate := 19200; dataBits := 7; stopBits := 2;
            parity := "even" |}.
Proof.
  cbv zeta.
  apply (truthy_options_kept "COM3" 19200 7 2 "even" initial); discriminate.
Defined.

(** X15.  [initialize] stops the poll: when the only timers are the one
    the instance holds the handle of, nothing is written after
    [initialize], however long the new port takes to open. *)
Theorem initialize_silences (portName : string) (options : HH42Options)
    (w : World) (n : nat) :
  timersTracked w = true ->
  writes (elapse n (initializeSerialPort portName options w)) = writes w.
Proof.
  intros Ht.
  assert (Hi : intervals (initializeSerialPort portName options w) = []).
  { rewrite initialize_eq. fields. now apply stop_clears. }
  rewrite (elapse_idle n _ Hi), initialize_eq.
  unfold writes. fields. rewrite !writes_of_app.
  destruct (openPort w); cbn; now rewrite app_nil_r.
Qed.

Lemma initialize_silences_witness :
  let w := elapse 600 (port_opened 0 (initializeSerialPort "COM1" no_options initial)) in
  timersTracked w = true
  /\ writes w = [(524%Z, 0, POLL_COMMAND)]
  /\ writes (elapse 2000 (initializeSerialPort "COM2" no_options w))
     = [(524%Z, 0, POLL_COMMAND)].
Proof.
  cbv zeta.
  assert (Ht : timersTracked
                 (elapse 600 (port_opened 0
                    (initializeSerialPort "COM1" no_options initial))) = true)
    by (vm_compute; reflexivity).
  split; [exact Ht | split; [vm_compute; reflexivity|]].
  rewrite (initialize_silences "COM2" no_options _ 2000 Ht).
  vm_compute. reflexivity.
Defined.

End Bookkeeping.
